(** * llamaClient.ts: the local LLaMA client, its model cache and chat sessions

    A shallow embedding of [src/llm/llamaClient.ts].

    - The synchronous methods of [LlamaClient] ([countHistoryTokens],
      [getPromptOptions], [convertToChatHistory], [hydrateNativeHistory])
      are plain functions.
    - The asynchronous part ([loadModel], [createNativeSession], the
      constructor of [LlamaChatSessionWrapper] and [sendMessage]) is a
      transition system on a [World]: an [async] function runs up to its
      first [await] when it is called, and every later resumption is an
      event of its own.  What node-llama-cpp does (whether [getLlama],
      [llama.loadModel], [model.createContext] and [session.prompt] succeed,
      and with which value) is carried by the events. *)

From Stdlib Require Import ZArith Floats Ascii.
From Stdlib Require QArith Qround.
From stdpp Require Import gmap strings list pretty.

Open Scope string_scope.
Open Scope list_scope.

(** ** Data model *)

(** A JavaScript string is a sequence of UTF-16 code units; [string]
    stands for it, one character per code unit, and [String.length] for
    its [length]. *)

(** Modelled from the spec: the types [Message] and [LLMResponse] that the
    source imports from [../types/index.js], a file that is not among the
    sources at hand.  A message has a role, [user] or [model], and an
    ordered sequence of text parts; a response carries its text. *)
Inductive Role := user | model.

Record Part := { text : string }.

Record Message := { role : Role; parts : list Part }.

Record LLMResponse := { response_text : string }.

(** A JavaScript [number] is a binary64 float; a field that is
    [undefined] is [None]. *)
Record LlamaGenerationConfig := {
  temperature : option float;
  topP : option float;
  topK : option float;
  minP : option float;
  maxTokens : option float;
  seed : option float;
  responsePrefix : option string
}.

Definition DEFAULT_GENERATION_CONFIG : LlamaGenerationConfig :=
  {| temperature := None; topP := None; topK := None; minP := None;
     maxTokens := None; seed := None; responsePrefix := None |}.

(** [ChatHistoryItem] of node-llama-cpp, as far as this file builds it. *)
Inductive ChatHistoryItem :=
| ChatSystemMessage (item_text : string)
| ChatUserMessage (item_text : string)
| ChatModelResponse (response : list string).

(** A value this file never looks into ([unknown] in the source). *)
Inductive Unknown := Opaque (id : nat).

(** An object of type [Record<string, unknown>]: where it lives and what
    it holds.  Two object literals are two objects, at two addresses. *)
Record JsObject := { address : nat; fields : gmap string Unknown }.

(** The fields of [LlamaChatSessionInternal] that the client touches, and
    the two constructor options it passes.  A field that is [undefined] is
    [None]. *)
Record LlamaChatSession := {
  contextSequence : nat;
  systemPrompt : string;
  _chatHistory : option (list ChatHistoryItem);
  _chatHistoryStateRef : option JsObject;
  _lastEvaluation : option Unknown;
  _canUseContextWindowForCompletion : option bool
}.

Inductive LlamaModel := ModelHandle (id : nat).

(** The layer count and the context size are integers. *)
Record LlamaClient := {
  modelName : string;
  modelPath : string;
  gpuLayers : Z;
  contextSize : Z;
  generationConfig : LlamaGenerationConfig
}.

(** A value of an options object: a number or a string. *)
Inductive JsValue := VNum (x : float) | VStr (s : string).

(** ** Helpers of the source file and of the JavaScript library *)

(** [isFiniteNumber]: [value !== undefined && Number.isFinite(value)]. *)
Definition isFiniteNumber (value : option float) : bool :=
  match value with
  | None => false
  | Some x => PrimFloat.is_finite x
  end.

(** Truthiness of [string | undefined]: the empty string and [undefined]
    are falsy. *)
Definition truthy (value : option string) : bool :=
  match value with
  | None => false
  | Some s => negb (bool_decide (s = ""))
  end.

(** [Math.ceil(n / 4)] for a string length [n]: the quotient is exact in
    binary64 (a length is below 2^32 and 4 is a power of two), so this is
    the ceiling of the rational [n / 4]. *)
Definition Math_ceil (q : QArith_base.Q) : Z := Qround.Qceiling q.

Definition div4 (n : nat) : QArith_base.Q :=
  QArith_base.Qdiv (QArith_base.inject_Z (Z.of_nat n)) (QArith_base.inject_Z 4).

(** [Array.prototype.join]. *)
Definition join (sep : string) (l : list string) : string := String.concat sep l.

(** ** LlamaClient: the synchronous methods *)

(** [countHistoryTokens]: two nested [for ... of] loops over one
    accumulator, whose sum is exact (it stays far below 2^53). *)
Definition countHistoryTokens (history : list Message) : Z :=
  fold_left
    (fun totalTokens msg =>
       fold_left
         (fun totalTokens part =>
            (totalTokens + Math_ceil (div4 (String.length (text part))))%Z)
         (parts msg) totalTokens)
    history 0%Z.

Definition isAvailable (this : LlamaClient) : bool :=
  negb (bool_decide (modelPath this = "")) && (0 <? String.length (modelPath this))%nat.

(** One [if (isFiniteNumber(cfg.f)) { options.f = cfg.f }] of
    [getPromptOptions]. *)
Definition assignIfFinite (key : string) (value : option float)
    (options : gmap string JsValue) : gmap string JsValue :=
  match value with
  | Some x => if isFiniteNumber value then <[key := VNum x]> options else options
  | None => options
  end.

(** [if (cfg.responsePrefix) { options.responsePrefix = cfg.responsePrefix }]. *)
Definition assignIfTruthy (key : string) (value : option string)
    (options : gmap string JsValue) : gmap string JsValue :=
  match value with
  | Some s => if truthy value then <[key := VStr s]> options else options
  | None => options
  end.

(** [getPromptOptions]: the options object is a map from its own keys;
    [None] is [undefined]. *)
Definition getPromptOptions (this : LlamaClient) : option (gmap string JsValue) :=
  let cfg := generationConfig this in
  let options : gmap string JsValue := ∅ in
  let options := assignIfFinite "temperature" (temperature cfg) options in
  let options := assignIfFinite "topP" (topP cfg) options in
  let options := assignIfFinite "topK" (topK cfg) options in
  let options := assignIfFinite "minP" (minP cfg) options in
  let options := assignIfFinite "maxTokens" (maxTokens cfg) options in
  let options := assignIfFinite "seed" (seed cfg) options in
  let options := assignIfTruthy "responsePrefix" (responsePrefix cfg) options in
  if (0 <? size options)%nat then Some options else None.

(** [convertToChatHistory]: a loop that pushes one item per message. *)
Definition convertToChatHistory (history : list Message) : list ChatHistoryItem :=
  fold_left
    (fun items message =>
       let textParts := map text (parts message) in
       match role message with
       | user => items ++ [ChatUserMessage (join "" textParts)]
       | model =>
           items ++ [ChatModelResponse
                       (if (0 <? length textParts)%nat then textParts else [""])]
       end)
    history [].

(** [hydrateNativeHistory]: mutates the session; here it returns the
    session after the call.  [fresh] is the address at which the object
    literal [{}] is allocated. *)
Definition hydrateNativeHistory (session : LlamaChatSession)
    (history : list Message) (fresh : nat) : LlamaChatSession :=
  let chatHistoryItems := convertToChatHistory history in
  if (length chatHistoryItems =? 0)%nat then session
  else
    let existingHistory := default [] (_chatHistory session) in
    {| contextSequence := contextSequence session;
       systemPrompt := systemPrompt session;
       _chatHistory := Some (existingHistory ++ chatHistoryItems);
       _chatHistoryStateRef := Some {| address := fresh; fields := ∅ |};
       _lastEvaluation := None;
       _canUseContextWindowForCompletion := Some false |}.

(** ** The asynchronous part: promises, activations and the world *)

Inductive JsError := Error (message : string).

(** How an awaited operation of the runtime ends. *)
Inductive Outcome (A : Type) :=
| Resolves (value : A)
| Rejects (reason : JsError).
Arguments Resolves {A} value.
Arguments Rejects {A} reason.

(** How the call [llama.loadModel({...})] itself ends: it hands back a
    promise, or it throws before doing so. *)
Inductive LoadCall := ReturnsPromise | ThrowsSync (e : JsError).

(** The promise made by the [async] arrow function inside [loadModel],
    which is the value stored in the cache.
    - [AwaitingGetLlama]: the body is suspended at [await getLlama()];
    - [AdoptingLoadModel]: the body has executed
      [return llama.loadModel({...})]; the promise is resolved with the
      promise of node-llama-cpp and settles as that one does.  The body has
      returned, so its [try] block is over;
    - [ModelFulfilled], [ModelRejected]: settled. *)
Inductive ModelPromise :=
| AwaitingGetLlama (cacheKey : string) (this : LlamaClient)
| AdoptingLoadModel
| ModelFulfilled (m : LlamaModel)
| ModelRejected (e : JsError).

(** The promise returned by [createNativeSession]: its body is suspended
    at [await this.loadModel()], or, holding the model [m], at
    [await m.createContext({...})], or the promise is settled. *)
Inductive SessionPromise :=
| AwaitingModel (this : LlamaClient) (modelPromise : option nat)
    (systemInstruction : string) (history : option (list Message))
| AwaitingContext (this : LlamaClient) (m : LlamaModel)
    (systemInstruction : string) (history : option (list Message))
| SessionFulfilled (session : LlamaChatSession)
| SessionRejected (e : JsError).

Record LlamaChatSessionWrapper := {
  history : list Message;
  sessionPromise : nat;
  client : LlamaClient
}.

(** One activation of [sendMessage]. *)
Inductive SendMessageCall :=
| AwaitingSession (wrapper : nat) (message_text : string)
| AwaitingPrompt (wrapper : nat) (message_text : string)
| Returned (r : LLMResponse)
| Threw (e : JsError).

(** Promises, wrapper objects and activations are named by their index.
    The last three fields record the calls made into node-llama-cpp; the
    cache key in [getLlamaCalls] and [llamaLoadModelCalls] tells on whose
    behalf the call was made. *)
Record World := {
  modelCache : gmap string nat;
  modelPromises : list ModelPromise;
  sessionPromises : list SessionPromise;
  wrappers : list LlamaChatSessionWrapper;
  sendMessageCalls : list SendMessageCall;
  getLlamaCalls : list string;
  llamaLoadModelCalls : list (string * (string * Z));
  promptCalls : list (nat * string * option (gmap string JsValue))
}.

Definition emptyWorld : World :=
  {| modelCache := ∅; modelPromises := []; sessionPromises := [];
     wrappers := []; sendMessageCalls := []; getLlamaCalls := [];
     llamaLoadModelCalls := []; promptCalls := [] |}.

Definition with_modelCache (c : gmap string nat) (w : World) : World :=
  {| modelCache := c; modelPromises := modelPromises w;
     sessionPromises := sessionPromises w; wrappers := wrappers w;
     sendMessageCalls := sendMessageCalls w; getLlamaCalls := getLlamaCalls w;
     llamaLoadModelCalls := llamaLoadModelCalls w; promptCalls := promptCalls w |}.

Definition with_modelPromises (l : list ModelPromise) (w : World) : World :=
  {| modelCache := modelCache w; modelPromises := l;
     sessionPromises := sessionPromises w; wrappers := wrappers w;
     sendMessageCalls := sendMessageCalls w; getLlamaCalls := getLlamaCalls w;
     llamaLoadModelCalls := llamaLoadModelCalls w; promptCalls := promptCalls w |}.

Definition with_sessionPromises (l : list SessionPromise) (w : World) : World :=
  {| modelCache := modelCache w; modelPromises := modelPromises w;
     sessionPromises := l; wrappers := wrappers w;
     sendMessageCalls := sendMessageCalls w; getLlamaCalls := getLlamaCalls w;
     llamaLoadModelCalls := llamaLoadModelCalls w; promptCalls := promptCalls w |}.

Definition with_wrappers (l : list LlamaChatSessionWrapper) (w : World) : World :=
  {| modelCache := modelCache w; modelPromises := modelPromises w;
     sessionPromises := sessionPromises w; wrappers := l;
     sendMessageCalls := sendMessageCalls w; getLlamaCalls := getLlamaCalls w;
     llamaLoadModelCalls := llamaLoadModelCalls w; promptCalls := promptCalls w |}.

Definition with_sendMessageCalls (l : list SendMessageCall) (w : World) : World :=
  {| modelCache := modelCache w; modelPromises := modelPromises w;
     sessionPromises := sessionPromises w; wrappers := wrappers w;
     sendMessageCalls := l; getLlamaCalls := getLlamaCalls w;
     llamaLoadModelCalls := llamaLoadModelCalls w; promptCalls := promptCalls w |}.

Definition with_getLlamaCalls (l : list string) (w : World) : World :=
  {| modelCache := modelCache w; modelPromises := modelPromises w;
     sessionPromises := sessionPromises w; wrappers := wrappers w;
     sendMessageCalls := sendMessageCalls w; getLlamaCalls := l;
     llamaLoadModelCalls := llamaLoadModelCalls w; promptCalls := promptCalls w |}.

Definition with_llamaLoadModelCalls (l : list (string * (string * Z))) (w : World) : World :=
  {| modelCache := modelCache w; modelPromises := modelPromises w;
     sessionPromises := sessionPromises w; wrappers := wrappers w;
     sendMessageCalls := sendMessageCalls w; getLlamaCalls := getLlamaCalls w;
     llamaLoadModelCalls := l; promptCalls := promptCalls w |}.

Definition with_promptCalls
    (l : list (nat * string * option (gmap string JsValue))) (w : World) : World :=
  {| modelCache := modelCache w; modelPromises := modelPromises w;
     sessionPromises := sessionPromises w; wrappers := wrappers w;
     sendMessageCalls := sendMessageCalls w; getLlamaCalls := getLlamaCalls w;
     llamaLoadModelCalls := llamaLoadModelCalls w; promptCalls := l |}.

(** ** loadModel and the body of its arrow function *)

(** The template literal [`${this.modelPath}|${this.gpuLayers}`]. *)
Definition cacheKeyOf (this : LlamaClient) : string :=
  modelPath this +:+ "|" +:+ pretty (gpuLayers this).

(** [loadModel], up to its [return]: when the cache has no entry for the
    key, the arrow function is called (it calls [getLlama()], an [async]
    function, and suspends at the [await]) and its promise is stored.  The
    result is [modelCache.get(cacheKey)], whose state the caller's promise
    takes over. *)
Definition loadModel (this : LlamaClient) (w : World) : World * option nat :=
  let cacheKey := cacheKeyOf this in
  let w :=
    if negb (bool_decide (is_Some (modelCache w !! cacheKey))) then
      let modelPromise := length (modelPromises w) in
      let w := with_getLlamaCalls (getLlamaCalls w ++ [cacheKey]) w in
      let w := with_modelPromises
                 (modelPromises w ++ [AwaitingGetLlama cacheKey this]) w in
      with_modelCache (<[cacheKey := modelPromise]> (modelCache w)) w
    else w in
  (w, modelCache w !! cacheKey).

(** The [catch] block of the arrow function, run for promise [p]. *)
Definition catchLoadError (p : nat) (cacheKey : string) (error : JsError)
    (w : World) : World :=
  let w := with_modelCache (delete cacheKey (modelCache w)) w in
  with_modelPromises (<[p := ModelRejected error]> (modelPromises w)) w.

(** [await getLlama()] is over for the body of promise [p]. *)
Definition resumeGetLlama (p : nat) (o : Outcome LoadCall) (w : World)
    : option World :=
  match modelPromises w !! p with
  | Some (AwaitingGetLlama cacheKey this) =>
      match o with
      | Resolves call =>
          let w := with_llamaLoadModelCalls
                     (llamaLoadModelCalls w
                        ++ [(cacheKey, (modelPath this, gpuLayers this))]) w in
          match call with
          | ReturnsPromise =>
              Some (with_modelPromises
                      (<[p := AdoptingLoadModel]> (modelPromises w)) w)
          | ThrowsSync error => Some (catchLoadError p cacheKey error w)
          end
      | Rejects error => Some (catchLoadError p cacheKey error w)
      end
  | _ => None
  end.

(** The promise of [llama.loadModel] settles; promise [p] follows it. *)
Definition settleLlamaLoadModel (p : nat) (o : Outcome LlamaModel) (w : World)
    : option World :=
  match modelPromises w !! p with
  | Some AdoptingLoadModel =>
      let settled := match o with
                     | Resolves m => ModelFulfilled m
                     | Rejects error => ModelRejected error
                     end in
      Some (with_modelPromises (<[p := settled]> (modelPromises w)) w)
  | _ => None
  end.

(** ** createNativeSession *)

(** Up to the first [await]: [this.loadModel()] is called. *)
Definition createNativeSession (this : LlamaClient) (systemInstruction : string)
    (history : option (list Message)) (w : World) : World * nat :=
  let '(w, modelPromise) := loadModel this w in
  let promise := length (sessionPromises w) in
  (with_sessionPromises
     (sessionPromises w
        ++ [AwaitingModel this modelPromise systemInstruction history]) w,
   promise).

(** [await this.loadModel()] is over for session promise [sp]; the body
    goes on to [await model.createContext(...)].  With no promise to wait
    for, [model] is [undefined] and the call on it throws. *)
Definition resumeLoadModel (sp : nat) (w : World) : option World :=
  match sessionPromises w !! sp with
  | Some (AwaitingModel this modelPromise systemInstruction history) =>
      match modelPromise with
      | None =>
          Some (with_sessionPromises
                  (<[sp := SessionRejected (Error "TypeError")]> (sessionPromises w)) w)
      | Some p =>
          match modelPromises w !! p with
          | Some (ModelFulfilled m) =>
              Some (with_sessionPromises
                      (<[sp := AwaitingContext this m systemInstruction history]>
                         (sessionPromises w)) w)
          | Some (ModelRejected error) =>
              Some (with_sessionPromises
                      (<[sp := SessionRejected error]> (sessionPromises w)) w)
          | _ => None
          end
      end
  | _ => None
  end.

(** The rest of [createNativeSession]: [Resolves session] when the context,
    its sequence and [new LlamaChatSession({...})] were obtained, [session]
    being the new object; [Rejects] when one of them failed.  [fresh] is
    the next free address for an object. *)
Definition settleContext (sp : nat) (o : Outcome LlamaChatSession) (fresh : nat)
    (w : World) : option World :=
  match sessionPromises w !! sp with
  | Some (AwaitingContext this _ systemInstruction history) =>
      let settled :=
        match o with
        | Resolves session =>
            SessionFulfilled
              match history with
              | Some h =>
                  if (0 <? length h)%nat then hydrateNativeHistory session h fresh
                  else session
              | None => session
              end
        | Rejects error => SessionRejected error
        end in
      Some (with_sessionPromises (<[sp := settled]> (sessionPromises w)) w)
  | _ => None
  end.

(** ** LlamaChatSessionWrapper *)

(** The constructor; [createChatSession] is this call. *)
Definition newLlamaChatSessionWrapper (client : LlamaClient)
    (systemInstruction : string) (initialHistory : option (list Message))
    (w : World) : World * nat :=
  let history := default [] initialHistory in
  let '(w, sessionPromise) :=
    createNativeSession client systemInstruction (Some history) w in
  let this := length (wrappers w) in
  (with_wrappers
     (wrappers w ++ [{| history := history; sessionPromise := sessionPromise;
                        client := client |}]) w,
   this).

Definition createChatSession (this : LlamaClient) (systemInstruction : string)
    (history : option (list Message)) (w : World) : World * nat :=
  newLlamaChatSessionWrapper this systemInstruction history w.

(** [sendMessage], up to [await this.getNativeSession()]. *)
Definition sendMessage (this : nat) (text : string) (w : World)
    : option (World * nat) :=
  match wrappers w !! this with
  | Some _ =>
      let call := length (sendMessageCalls w) in
      Some (with_sendMessageCalls
              (sendMessageCalls w ++ [AwaitingSession this text]) w,
            call)
  | None => None
  end.

(** The session promise is settled and activation [c] goes on: it calls
    [session.prompt(text, this.client.getPromptOptions())] and suspends
    again, or throws what the session promise was rejected with. *)
Definition resumeGetNativeSession (c : nat) (w : World) : option World :=
  match sendMessageCalls w !! c with
  | Some (AwaitingSession this text) =>
      match wrappers w !! this with
      | Some wrapper =>
          match sessionPromises w !! sessionPromise wrapper with
          | Some (SessionFulfilled session) =>
              let w := with_promptCalls
                         (promptCalls w
                            ++ [(sessionPromise wrapper, text,
                                 getPromptOptions (client wrapper))]) w in
              Some (with_sendMessageCalls
                      (<[c := AwaitingPrompt this text]> (sendMessageCalls w)) w)
          | Some (SessionRejected error) =>
              Some (with_sendMessageCalls
                      (<[c := Threw error]> (sendMessageCalls w)) w)
          | _ => None
          end
      | None => None
      end
  | _ => None
  end.

(** [await session.prompt(...)] is over for activation [c]: the two
    [push]es and the [return], or the exception. *)
Definition settlePrompt (c : nat) (o : Outcome string) (w : World)
    : option World :=
  match sendMessageCalls w !! c with
  | Some (AwaitingPrompt this text) =>
      match wrappers w !! this with
      | Some wrapper =>
          match o with
          | Resolves responseText =>
              let h := history wrapper in
              let h := h ++ [{| role := user; parts := [{| text := text |}] |}] in
              let h := h ++ [{| role := model; parts := [{| text := responseText |}] |}] in
              let w := with_wrappers
                         (<[this := {| history := h;
                                       sessionPromise := sessionPromise wrapper;
                                       client := client wrapper |}]> (wrappers w)) w in
              Some (with_sendMessageCalls
                      (<[c := Returned {| response_text := responseText |}]>
                         (sendMessageCalls w)) w)
          | Rejects error =>
              Some (with_sendMessageCalls
                      (<[c := Threw error]> (sendMessageCalls w)) w)
          end
      | None => None
      end
  | _ => None
  end.

Definition getHistory (this : nat) (w : World) : option (list Message) :=
  history <$> wrappers w !! this.

(** ** Events and runs *)

Inductive Event :=
| CreateChatSession (this : LlamaClient) (systemInstruction : string)
    (initialHistory : option (list Message))
| GetLlamaSettled (p : nat) (o : Outcome LoadCall)
| LlamaLoadModelSettled (p : nat) (o : Outcome LlamaModel)
| LoadModelAwaited (sp : nat)
| ContextSettled (sp : nat) (o : Outcome LlamaChatSession) (fresh : nat)
| SendMessage (wrapper : nat) (message_text : string)
| NativeSessionAwaited (c : nat)
| PromptSettled (c : nat) (o : Outcome string).

(** [None]: the event cannot happen in this world. *)
Definition step (ev : Event) (w : World) : option World :=
  match ev with
  | CreateChatSession this systemInstruction initialHistory =>
      Some (fst (createChatSession this systemInstruction initialHistory w))
  | GetLlamaSettled p o => resumeGetLlama p o w
  | LlamaLoadModelSettled p o => settleLlamaLoadModel p o w
  | LoadModelAwaited sp => resumeLoadModel sp w
  | ContextSettled sp o fresh => settleContext sp o fresh w
  | SendMessage wrapper text => fst <$> sendMessage wrapper text w
  | NativeSessionAwaited c => resumeGetNativeSession c w
  | PromptSettled c o => settlePrompt c o w
  end.

Fixpoint run (evs : list Event) (w : World) : option World :=
  match evs with
  | [] => Some w
  | ev :: evs' =>
      match step ev w with
      | Some w' => run evs' w'
      | None => None
      end
  end.

(** Worlds the program can be in. *)
Inductive reachable : World -> Prop :=
| reachable_empty : reachable emptyWorld
| reachable_step ev w w' : reachable w -> step ev w = Some w' -> reachable w'.

(** ** Notions used to state the properties *)

(** Ceiling of [n / 4] on integers. *)
Definition ceiling4 (n : nat) : Z := ((Z.of_nat n + 3) / 4)%Z.

Definition sumZ (l : list Z) : Z := foldr Z.add 0%Z l.

(** Every text part of every message, in order. *)
Definition allParts (h : list Message) : list Part := flat_map parts h.

(** The token estimate in the words of the specification: the ceiling of a
    quarter of the length, summed over every text part of every message. *)
Definition estimate_spec (h : list Message) : Z :=
  sumZ (map (fun part => ceiling4 (String.length (text part))) (allParts h)).

(** Total length of the part texts of a history. *)
Definition totalTextLength (h : list Message) : nat :=
  foldr Nat.add 0 (map (fun part => String.length (text part)) (allParts h)).

(** What rounding a part of length [n] up to a multiple of 4 adds. *)
Definition padding4 (n : nat) : Z := ((4 - Z.of_nat n mod 4) mod 4)%Z.

Definition totalPadding (h : list Message) : Z :=
  sumZ (map (fun part => padding4 (String.length (text part))) (allParts h)).

(** The translation of one message in the words of the specification: a
    model item carries the part texts as they are. *)
Definition toNativeItem_spec (m : Message) : ChatHistoryItem :=
  match role m with
  | user => ChatUserMessage (foldr String.append "" (map text (parts m)))
  | model => ChatModelResponse (map text (parts m))
  end.

Definition toNativeHistory_spec (h : list Message) : list ChatHistoryItem :=
  map toNativeItem_spec h.

(** The translation of one message as the code makes it. *)
Definition nativeItemOf (m : Message) : ChatHistoryItem :=
  match role m with
  | user => ChatUserMessage (foldr String.append "" (map text (parts m)))
  | model =>
      ChatModelResponse
        match map text (parts m) with
        | [] => [""]
        | texts => texts
        end
  end.

(** A numeric field that is set and finite, a prefix that is set and not
    empty: the entry the options record is to hold for it. *)
Definition presentNumber (value : option float) : option JsValue :=
  match value with
  | Some x => if PrimFloat.is_finite x then Some (VNum x) else None
  | None => None
  end.

Definition presentPrefix (value : option string) : option JsValue :=
  match value with
  | Some s => if bool_decide (s = "") then None else Some (VStr s)
  | None => None
  end.

Definition expectedOption (cfg : LlamaGenerationConfig) (key : string)
    : option JsValue :=
  if bool_decide (key = "temperature") then presentNumber (temperature cfg)
  else if bool_decide (key = "topP") then presentNumber (topP cfg)
  else if bool_decide (key = "topK") then presentNumber (topK cfg)
  else if bool_decide (key = "minP") then presentNumber (minP cfg)
  else if bool_decide (key = "maxTokens") then presentNumber (maxTokens cfg)
  else if bool_decide (key = "seed") then presentNumber (seed cfg)
  else if bool_decide (key = "responsePrefix") then presentPrefix (responsePrefix cfg)
  else None.

(** [String.prototype.trim] on code units below 256: tab, line feed,
    vertical tab, form feed, carriage return, space and no-break space. *)
Definition isWhiteSpace (c : ascii) : bool :=
  let n := nat_of_ascii c in
  (((9 <=? n) && (n <=? 13)) || (n =? 32) || (n =? 160))%nat.

Fixpoint trimStart (s : string) : string :=
  match s with
  | String c s' => if isWhiteSpace c then trimStart s' else s
  | EmptyString => EmptyString
  end.

Fixpoint trimEnd (s : string) : string :=
  match s with
  | String c s' =>
      match trimEnd s' with
      | EmptyString => if isWhiteSpace c then EmptyString else String c EmptyString
      | t => String c t
      end
  | EmptyString => EmptyString
  end.

Definition trim (s : string) : string := trimEnd (trimStart s).

(** [process.env.LLAMA_RESPONSE_PREFIX?.trim() || undefined], the prefix
    [fromEnvironment] puts into the generation config. *)
Definition responsePrefixFromEnvironment (env : option string) : option string :=
  match env with
  | Some s => if truthy (Some (trim s)) then Some (trim s) else None
  | None => None
  end.

(** Whether a string holds the separator of the cache key. *)
Fixpoint containsBar (s : string) : bool :=
  match s with
  | String c s' => bool_decide (c = "|"%char) || containsBar s'
  | EmptyString => false
  end.

(** The cache holds an entry for [key] in the world a run starts in and
    after each of its events. *)
Fixpoint presentThroughout (key : string) (evs : list Event) (w : World) : Prop :=
  is_Some (modelCache w !! key) /\
  match evs with
  | [] => True
  | ev :: evs' =>
      match step ev w with
      | Some w' => presentThroughout key evs' w'
      | None => True
      end
  end.

(** The acquisitions of a run: for each session created, the cache key of
    its client and what its [loadModel] call returned. *)
Fixpoint acquisitions (evs : list Event) (w : World) : list (string * option nat) :=
  match evs with
  | [] => []
  | ev :: evs' =>
      match ev with
      | CreateChatSession this _ _ => [(cacheKeyOf this, snd (loadModel this w))]
      | _ => []
      end
      ++ match step ev w with
         | Some w' => acquisitions evs' w'
         | None => []
         end
  end.

(** How often a call into the runtime was made on behalf of [key]. *)
Definition getLlamaCount (key : string) (w : World) : nat :=
  length (filter (fun k => k = key) (getLlamaCalls w)).

Definition llamaLoadModelCount (key : string) (w : World) : nat :=
  length (filter (fun c => c.1 = key) (llamaLoadModelCalls w)).

(** Invariants of the reachable worlds. *)
Definition awaitingOwnsEntry (w : World) : Prop :=
  forall p key this,
    modelPromises w !! p = Some (AwaitingGetLlama key this) ->
    modelCache w !! key = Some p.

Definition promptingHasSession (w : World) : Prop :=
  forall c wr t,
    sendMessageCalls w !! c = Some (AwaitingPrompt wr t) ->
    exists wrapper session,
      wrappers w !! wr = Some wrapper /\
      sessionPromises w !! sessionPromise wrapper = Some (SessionFulfilled session).

(** 1 while the body of model promise [p] is suspended at
    [await getLlama()], 0 otherwise. *)
Definition awaitingGetLlamaAt (p : nat) (w : World) : nat :=
  match modelPromises w !! p with
  | Some (AwaitingGetLlama _ _) => 1
  | _ => 0
  end.

Definition modelSettled (st : ModelPromise) : Prop :=
  match st with
  | ModelFulfilled _ | ModelRejected _ => True
  | _ => False
  end.


Definition cacheAllocated (w : World) : Prop :=
  forall key p, modelCache w !! key = Some p -> p < length (modelPromises w).

Definition wellFormed (w : World) : Prop :=
  awaitingOwnsEntry w /\ promptingHasSession w /\ cacheAllocated w.

(** ** Concrete inputs *)

(** A history of total length 40 whose estimate is 11, and one of total
    length 41 whose estimate is 12: each part is rounded up on its own. *)
Definition history_1_39 : list Message :=
  [ {| role := user;
       parts := [ {| text := "a" |};
                  {| text := "012345678901234567890123456789012345678" |} ] |} ].

Definition history_1_1_39 : list Message :=
  [ {| role := user; parts := [ {| text := "a" |} ] |};
    {| role := model;
       parts := [ {| text := "b" |};
                  {| text := "012345678901234567890123456789012345678" |} ] |} ].

(** A single part of 40 characters. *)
Definition history_40 : list Message :=
  [ {| role := user;
       parts := [ {| text := "0123456789012345678901234567890123456789" |} ] |} ].


(** The history of the specification's example, and a model message
    without parts. *)
Definition history_a_bc_d : list Message :=
  [ {| role := user; parts := [ {| text := "a" |} ] |};
    {| role := model; parts := [ {| text := "b" |}; {| text := "c" |} ] |};
    {| role := user; parts := [ {| text := "d" |} ] |} ].

Definition model_without_parts : Message := {| role := model; parts := [] |}.

(** A native session as [new LlamaChatSession] leaves it, holding the
    system prompt and a cached evaluation. *)
Definition fresh_session : LlamaChatSession :=
  {| contextSequence := 0;
     systemPrompt := "be brief";
     _chatHistory := Some [ChatSystemMessage "be brief"];
     _chatHistoryStateRef := Some {| address := 1; fields := ∅ |};
     _lastEvaluation := Some (Opaque 2);
     _canUseContextWindowForCompletion := Some true |}.

(** A client with every generation-config field unset, and one with only
    [temperature] set, to the binary64 value of the literal [0.7]. *)
Definition client_with (cfg : LlamaGenerationConfig) : LlamaClient :=
  {| modelName := "llama"; modelPath := "/models/llama.gguf"; gpuLayers := 35;
     contextSize := 4096; generationConfig := cfg |}.

Definition number_0_7 : float := 0x1.6666666666666p-1%float.

Definition config_temperature_0_7 : LlamaGenerationConfig :=
  {| temperature := Some number_0_7; topP := None; topK := None; minP := None;
     maxTokens := None; seed := None; responsePrefix := None |}.

(** A client, and the run in which the first model load fails after
    [getLlama] succeeded: [llama.loadModel] returns a promise that is
    rejected. *)
Definition example_client : LlamaClient := client_with DEFAULT_GENERATION_CONFIG.

Definition load_failure_run : list Event :=
  [ CreateChatSession example_client "be brief" None;
    GetLlamaSettled 0 (Resolves ReturnsPromise);
    LlamaLoadModelSettled 0 (Rejects (Error "cannot read the weights")) ].

(** A world with one chat session whose native session is ready, and one
    whose native session could not be made because the model load failed. *)
Definition ready_run : list Event :=
  [ CreateChatSession example_client "be brief" None;
    GetLlamaSettled 0 (Resolves ReturnsPromise);
    LlamaLoadModelSettled 0 (Resolves (ModelHandle 1));
    LoadModelAwaited 0;
    ContextSettled 0 (Resolves fresh_session) 2 ].

Definition ready_world : World := default emptyWorld (run ready_run emptyWorld).



Definition example_wrapper : LlamaChatSessionWrapper :=
  {| history := []; sessionPromise := 0; client := example_client |}.

(** Configs whose only field is a response prefix that is not trimmed. *)
Definition config_blank_prefix : LlamaGenerationConfig :=
  {| temperature := None; topP := None; topK := None; minP := None;
     maxTokens := None; seed := None; responsePrefix := Some " " |}.

Definition config_padded_prefix : LlamaGenerationConfig :=
  {| temperature := None; topP := None; topK := None; minP := None;
     maxTokens := None; seed := None; responsePrefix := Some " > " |}.

(** No two keys of the cache name the same promise. *)
Definition cacheInjective (w : World) : Prop :=
  forall key1 key2 p,
    modelCache w !! key1 = Some p -> modelCache w !! key2 = Some p -> key1 = key2.

(** ** Building the client from the environment *)

(** Modelled from the spec: the record [validateLlamaConfig()] returns.
    Its module [./llamaValidation.js] is not among the sources at hand;
    [fromEnvironment] reads these four fields of it. *)
Record LlamaConfig := {
  config_modelName : string;
  llamaModelPath : string;
  llamaGpuLayers : Z;
  llamaContextSize : Z
}.

Section Environment.

(** [Number.parseFloat] and [Number.parseInt] belong to the language;
    they are taken as they come. *)
Variable Number_parseFloat : string -> float.
Variable Number_parseInt : string -> Z -> float.

Definition parseNullableFloat (value : option string) : option float :=
  match value with
  | None => None
  | Some s =>
      if bool_decide (s = "") then None
      else
        let parsed := Number_parseFloat s in
        if PrimFloat.is_finite parsed then Some parsed else None
  end.

Definition parseNullableInt (value : option string) : option float :=
  match value with
  | None => None
  | Some s =>
      if bool_decide (s = "") then None
      else
        let parsed := Number_parseInt s 10 in
        if PrimFloat.is_finite parsed then Some parsed else None
  end.

(** [fromEnvironment]: [config] is what [validateLlamaConfig()] returned
    and [env] is [process.env]; a variable that is not set is
    [undefined].  Every field of [DEFAULT_GENERATION_CONFIG] is
    overwritten. *)
Definition fromEnvironment (config : LlamaConfig) (env : gmap string string)
    : LlamaClient :=
  {| modelName := config_modelName config;
     modelPath := llamaModelPath config;
     gpuLayers := llamaGpuLayers config;
     contextSize := llamaContextSize config;
     generationConfig :=
       {| temperature := parseNullableFloat (env !! "LLAMA_TEMPERATURE");
          topP := parseNullableFloat (env !! "LLAMA_TOP_P");
          topK := parseNullableInt (env !! "LLAMA_TOP_K");
          minP := parseNullableFloat (env !! "LLAMA_MIN_P");
          maxTokens := parseNullableInt (env !! "LLAMA_MAX_TOKENS");
          seed := parseNullableInt (env !! "LLAMA_SEED");
          responsePrefix :=
            responsePrefixFromEnvironment (env !! "LLAMA_RESPONSE_PREFIX") |} |}.

End Environment.

(** ** Further notions used to state properties *)

(** The messages that the exchanges [(text, response)] add to a history. *)
Definition turnsOf (exchanges : list (string * string)) : list Message :=
  flat_map
    (fun '(t, r) =>
       [ {| role := user; parts := [ {| text := t |} ] |};
         {| role := model; parts := [ {| text := r |} ] |} ])
    exchanges.

Definition partCount (h : list Message) : nat := length (allParts h).

(** The history argument that a pending session promise carries. *)
Definition pendingHistory (st : SessionPromise) : option (option (list Message)) :=
  match st with
  | AwaitingModel _ _ _ h => Some h
  | AwaitingContext _ _ _ h => Some h
  | _ => None
  end.

(** While a wrapper's session promise is pending, the history it was
    created with is the wrapper's history; and the promise exists. *)
Definition pendingSessionHoldsHistory (w : World) : Prop :=
  forall wr wrapper,
    wrappers w !! wr = Some wrapper ->
    exists st,
      sessionPromises w !! sessionPromise wrapper = Some st
      /\ forall h, pendingHistory st = Some h -> h = Some (history wrapper).

(** Every recorded prompt call was made on a session promise that is
    fulfilled. *)
Definition promptedOnlyWhenReady (w : World) : Prop :=
  forall sp t o,
    (sp, t, o) ∈ promptCalls w ->
    exists session, sessionPromises w !! sp = Some (SessionFulfilled session).

(** No body suspended at [await getLlama()] belongs to [key]. *)
Definition pastGetLlama (st : ModelPromise) : Prop :=
  match st with
  | AwaitingGetLlama _ _ => False
  | _ => True
  end.

(** What [await getLlama()] may end with when no model gets loaded. *)
Definition failsBeforeLoad (o : Outcome LoadCall) (e : JsError) : Prop :=
  o = Rejects e \/ o = Resolves (ThrowsSync e).

(** How a numeric field is read from the value of its variable with the
    parser [parse]: a variable that is not set or is empty leaves the
    field unset; any other value sets it to the parsed number when that is
    finite and leaves it unset when it is not. *)
Definition readsNumber (parse : string -> float) (value : option string)
    (field : option float) : Prop :=
  (value = None \/ value = Some "" -> field = None)
  /\ forall s, value = Some s -> s <> "" ->
       field = if PrimFloat.is_finite (parse s) then Some (parse s) else None.

(** How the response prefix is read: the trimmed value when that is not
    empty. *)
Definition readsPrefix (value : option string) (field : option string) : Prop :=
  (value = None -> field = None)
  /\ forall v, value = Some v ->
       field = if bool_decide (trim v = "") then None else Some (trim v).

(** An environment and a parser for the examples: the parser knows one
    numeral. *)
Definition example_parseFloat (s : string) : float :=
  if bool_decide (s = "0.7") then number_0_7 else PrimFloat.nan.

Definition example_parseInt (s : string) (radix : Z) : float :=
  if bool_decide (s = "40") then 40%float else PrimFloat.nan.

Definition example_config : LlamaConfig :=
  {| config_modelName := "llama"; llamaModelPath := "/models/llama.gguf";
     llamaGpuLayers := 35; llamaContextSize := 4096 |}.

Definition example_env : gmap string string :=
  {[ "LLAMA_TEMPERATURE" := "0.7"; "LLAMA_TOP_K" := "forty";
     "LLAMA_SEED" := ""; "LLAMA_RESPONSE_PREFIX" := "  > " ]}.

(** One completed exchange on the ready session. *)
Definition turn_run : list Event :=
  [ SendMessage 0 "hi"; NativeSessionAwaited 0; PromptSettled 0 (Resolves "hello") ].

Definition world_after_turn : World := default emptyWorld (run turn_run ready_world).

(** The world right after the first session was created. *)
Definition created_world : World :=
  fst (createChatSession example_client "be brief" None emptyWorld).

(** A session that was created with a history, up to the creation of its
    context. *)
Definition seeded_run : list Event :=
  [ CreateChatSession example_client "be brief" (Some history_a_bc_d);
    GetLlamaSettled 0 (Resolves ReturnsPromise);
    LlamaLoadModelSettled 0 (Resolves (ModelHandle 1));
    LoadModelAwaited 0 ].

Definition context_pending_world : World :=
  default emptyWorld (run seeded_run emptyWorld).

Definition seeded_wrapper : LlamaChatSessionWrapper :=
  {| history := history_a_bc_d; sessionPromise := 0; client := example_client |}.

(** A session promise whose body has got hold of a model. *)
Definition holdsModel (st : SessionPromise) : Prop :=
  match st with
  | AwaitingContext _ _ _ _ | SessionFulfilled _ => True
  | _ => False
  end.

Definition sessionsNeedModel (w : World) : Prop :=
  forall sp st,
    sessionPromises w !! sp = Some st -> holdsModel st ->
    exists p m, modelPromises w !! p = Some (ModelFulfilled m).

(** Every recorded prompt call was made by a wrapper, on its session
    promise and with the options of its client. *)
Definition promptedByWrapper (w : World) : Prop :=
  forall sp t o,
    (sp, t, o) ∈ promptCalls w ->
    exists wr wrapper,
      wrappers w !! wr = Some wrapper
      /\ sessionPromise wrapper = sp
      /\ o = getPromptOptions (client wrapper).

(** The world in which the first model load has failed and the session
    has not yet resumed. *)
Definition load_failed_world : World :=
  default emptyWorld (run load_failure_run emptyWorld).
(** * Properties *)

(** ** Token estimate *)

Lemma Math_ceil_div4 (n : nat) : Math_ceil (div4 n) = ceiling4 n.
Proof.
  unfold Math_ceil, div4, ceiling4, Qround.Qceiling, Qround.Qfloor.
  cbn [QArith_base.Qdiv QArith_base.Qinv QArith_base.inject_Z
       QArith_base.Qmult QArith_base.Qopp QArith_base.Qnum QArith_base.Qden].
  rewrite Z.mul_1_r. change (Z.pos (1 * 4)) with 4%Z.
  Z.div_mod_to_equations. lia.
Qed.

Lemma ceiling4_bounds (n : nat) :
  (4 * (ceiling4 n - 1) < Z.of_nat n <= 4 * ceiling4 n)%Z.
Proof. unfold ceiling4. Z.div_mod_to_equations. lia. Qed.

Lemma ceiling4_padding (n : nat) :
  (4 * ceiling4 n = Z.of_nat n + padding4 n)%Z /\ (0 <= padding4 n < 4)%Z.
Proof. unfold ceiling4, padding4. Z.div_mod_to_equations. lia. Qed.

Lemma sumZ_app (l1 l2 : list Z) : sumZ (l1 ++ l2) = (sumZ l1 + sumZ l2)%Z.
Proof. unfold sumZ. induction l1 as [|x l1 IH]; simpl; lia. Qed.

Lemma count_parts_loop (ps : list Part) (acc : Z) :
  fold_left
    (fun totalTokens part =>
       (totalTokens + Math_ceil (div4 (String.length (text part))))%Z) ps acc
  = (acc + sumZ (map (fun part => ceiling4 (String.length (text part))) ps))%Z.
Proof.
  revert acc. induction ps as [|p ps IH]; intros acc; simpl.
  - lia.
  - rewrite IH, Math_ceil_div4. lia.
Qed.

Lemma count_messages_loop (h : list Message) (acc : Z) :
  fold_left
    (fun totalTokens msg =>
       fold_left
         (fun totalTokens part =>
            (totalTokens + Math_ceil (div4 (String.length (text part))))%Z)
         (parts msg) totalTokens) h acc
  = (acc + estimate_spec h)%Z.
Proof.
  revert acc. induction h as [|m h IH]; intros acc; simpl.
  - unfold estimate_spec. simpl. lia.
  - rewrite IH, count_parts_loop. unfold estimate_spec, allParts. simpl.
    rewrite map_app, sumZ_app. lia.
Qed.

Lemma countHistoryTokens_spec (h : list Message) :
  countHistoryTokens h = estimate_spec h.
Proof. unfold countHistoryTokens. rewrite count_messages_loop. lia. Qed.

Lemma estimate_total_padding (h : list Message) :
  (4 * estimate_spec h = Z.of_nat (totalTextLength h) + totalPadding h)%Z
  /\ (0 <= totalPadding h)%Z.
Proof.
  unfold estimate_spec, totalTextLength, totalPadding.
  induction (allParts h) as [|p ps [IH1 IH2]]; simpl.
  - lia.
  - destruct (ceiling4_padding (String.length (text p))) as [H1 H2].
    unfold sumZ in *. simpl. lia.
Qed.

(** C9: for every history, [countHistoryTokens] is the sum, over every
    text part of every message, of the ceiling of a quarter of the part's
    length ([ceiling4 n] is the least integer [c] with [n <= 4 * c]). *)
Theorem countHistoryTokens_sums_part_ceilings (h : list Message) :
  countHistoryTokens h
  = sumZ (map (fun part => ceiling4 (String.length (text part))) (allParts h))
  /\ (forall n : nat, (4 * (ceiling4 n - 1) < Z.of_nat n <= 4 * ceiling4 n)%Z)
  /\ (forall n : nat, Math_ceil (div4 n) = ceiling4 n).
Proof.
  split; [apply countHistoryTokens_spec|].
  split; [apply ceiling4_bounds | apply Math_ceil_div4].
Qed.



(** A total length of 40 with estimate 11, and one of 41 with estimate 12. *)
Lemma countHistoryTokens_not_total_ceiling :
  (totalTextLength history_1_39 = 40 /\ countHistoryTokens history_1_39 <> 10%Z)
  /\ (totalTextLength history_1_1_39 = 41 /\ countHistoryTokens history_1_1_39 <> 11%Z).
Proof. vm_compute. repeat split; discriminate. Qed.

(** C8, amended: four times the estimate is the total length plus what
    rounding each part up to a multiple of 4 adds; when these additions
    stay below 4 in total (as for a history with a single text part) the
    estimate is the ceiling of a quarter of the total length: 10 for a
    total of 40 and 11 for a total of 41. *)
Theorem countHistoryTokens_total_length (h : list Message) :
  (4 * countHistoryTokens h = Z.of_nat (totalTextLength h) + totalPadding h)%Z
  /\ ((totalPadding h < 4)%Z ->
      countHistoryTokens h = ceiling4 (totalTextLength h)
      /\ (totalTextLength h = 40 -> countHistoryTokens h = 10%Z)
      /\ (totalTextLength h = 41 -> countHistoryTokens h = 11%Z))
  /\ (forall r t, h = [ {| role := r; parts := [ {| text := t |} ] |} ] ->
      (totalPadding h < 4)%Z).
Proof.
  rewrite countHistoryTokens_spec.
  destruct (estimate_total_padding h) as [H4 Hpos].
  split; [exact H4|]. split.
  - intros Hlt.
    assert (estimate_spec h = ceiling4 (totalTextLength h)) as Heq.
    { unfold ceiling4. Z.div_mod_to_equations. lia. }
    split; [exact Heq|]. rewrite Heq.
    split; intros ->; reflexivity.
  - intros r t ->. unfold totalPadding, allParts, sumZ. simpl.
    destruct (ceiling4_padding (String.length t)). lia.
Qed.


Lemma countHistoryTokens_total_length_witness :
  countHistoryTokens history_40 = 10%Z.
Proof.
  apply (proj2 (proj1 (proj2 (countHistoryTokens_total_length history_40))
                  ltac:(vm_compute; reflexivity))).
  vm_compute. reflexivity.
Defined.

(** ** History translation *)

Lemma append_empty_r (s : string) : String.append s "" = s.
Proof.
  induction s as [|c s IH]; [reflexivity|].
  change (String c (String.append s "") = String c s). rewrite IH. reflexivity.
Qed.

Lemma join_empty_separator (l : list string) :
  join "" l = foldr String.append "" l.
Proof.
  unfold join. induction l as [|x l IH]; [reflexivity|].
  destruct l as [|y l].
  - simpl. symmetry. apply append_empty_r.
  - change (String.concat "" (x :: y :: l))
      with (String.append x (String.append "" (String.concat "" (y :: l)))).
    rewrite IH. reflexivity.
Qed.

Lemma convert_loop (h : list Message) (items : list ChatHistoryItem) :
  fold_left
    (fun items message =>
       let textParts := map text (parts message) in
       match role message with
       | user => items ++ [ChatUserMessage (join "" textParts)]
       | model =>
           items ++ [ChatModelResponse
                       (if (0 <? length textParts)%nat then textParts else [""])]
       end) h items
  = items ++ map nativeItemOf h.
Proof.
  revert items. induction h as [|m h IH]; intros items; simpl.
  - symmetry. apply app_nil_r.
  - rewrite IH. change (nativeItemOf m :: map nativeItemOf h)
      with ([nativeItemOf m] ++ map nativeItemOf h).
    rewrite app_assoc. f_equal.
    unfold nativeItemOf. destruct (role m).
    + rewrite join_empty_separator. reflexivity.
    + destruct (map text (parts m)); reflexivity.
Qed.

Lemma convertToChatHistory_map (h : list Message) :
  convertToChatHistory h = map nativeItemOf h.
Proof. unfold convertToChatHistory. rewrite convert_loop. reflexivity. Qed.

Lemma convertToChatHistory_length (h : list Message) :
  length (convertToChatHistory h) = length h.
Proof. rewrite convertToChatHistory_map. apply length_map. Qed.

Lemma convertToChatHistory_lookup (h : list Message) (i : nat) :
  convertToChatHistory h !! i = nativeItemOf <$> h !! i.
Proof. rewrite convertToChatHistory_map. apply list_lookup_fmap. Qed.

(** For a model message without parts the item's response is not the
    (empty) sequence of its part texts. *)
Lemma convertToChatHistory_not_spec_on_empty_model :
  convertToChatHistory [model_without_parts]
  <> toNativeHistory_spec [model_without_parts]
  /\ convertToChatHistory [model_without_parts] <> [ChatModelResponse []].
Proof. vm_compute. split; discriminate. Qed.

(** C4, amended: the translation emits one item per message, in the same
    order; a [user] message gives a user item whose text is the
    concatenation of its part texts with no separator; a [model] message
    with at least one part gives a model item whose response is the
    sequence of its part texts; the empty history gives the empty
    sequence; and the result depends on the history alone. *)
Theorem convertToChatHistory_order_and_roles (h : list Message) :
  length (convertToChatHistory h) = length h
  /\ (forall i m, h !! i = Some m ->
        (role m = user ->
           convertToChatHistory h !! i
           = Some (ChatUserMessage (foldr String.append "" (map text (parts m)))))
        /\ (role m = model -> parts m <> [] ->
           convertToChatHistory h !! i
           = Some (ChatModelResponse (map text (parts m)))))
  /\ convertToChatHistory [] = []
  /\ convertToChatHistory history_a_bc_d
     = [ChatUserMessage "a"; ChatModelResponse ["b"; "c"]; ChatUserMessage "d"]
  /\ (forall h1 h2, convertToChatHistory (h1 ++ h2)
                    = convertToChatHistory h1 ++ convertToChatHistory h2).
Proof.
  split; [apply convertToChatHistory_length|]. split.
  - intros i m Hi. rewrite convertToChatHistory_lookup, Hi. simpl.
    unfold nativeItemOf. split.
    + intros ->. reflexivity.
    + intros -> Hne. destruct (parts m); [contradiction | reflexivity].
  - split; [reflexivity|]. split; [reflexivity|].
    intros h1 h2. rewrite !convertToChatHistory_map. apply map_app.
Qed.

Lemma convertToChatHistory_order_and_roles_witness :
  convertToChatHistory history_a_bc_d !! 1 = Some (ChatModelResponse ["b"; "c"]).
Proof.
  apply (proj2 (proj1 (proj2 (convertToChatHistory_order_and_roles history_a_bc_d))
                  1 {| role := model; parts := [ {| text := "b" |}; {| text := "c" |} ] |}
                  eq_refl));
    [reflexivity | discriminate].
Defined.

(** C10: a [model] message without parts is translated to a model item
    whose response is the one-element sequence holding the empty string. *)
Theorem convertToChatHistory_empty_model_parts (h : list Message) (i : nat) (m : Message) :
  h !! i = Some m -> role m = model -> parts m = [] ->
  convertToChatHistory h !! i = Some (ChatModelResponse [""])
  /\ convertToChatHistory h !! i <> Some (ChatModelResponse []).
Proof.
  intros Hi Hr Hp. rewrite convertToChatHistory_lookup, Hi. simpl.
  unfold nativeItemOf. rewrite Hr, Hp. split; [reflexivity | discriminate].
Qed.

Lemma convertToChatHistory_empty_model_parts_witness :
  convertToChatHistory [model_without_parts] !! 0 = Some (ChatModelResponse [""]).
Proof.
  apply (convertToChatHistory_empty_model_parts
           [model_without_parts] 0 model_without_parts eq_refl eq_refl eq_refl).
Defined.

(** ** Hydration *)

Lemma convertToChatHistory_nil_iff (h : list Message) :
  convertToChatHistory h = [] <-> h = [].
Proof.
  rewrite convertToChatHistory_map. split.
  - apply map_eq_nil.
  - intros ->. reflexivity.
Qed.

(** C5: [hydrateNativeHistory] leaves the session as it is when the
    translation of the history is empty; otherwise the session's native
    history becomes its existing items followed by the translated ones
    (every existing item keeps its place), the cached evaluation is
    cleared, the context-window-reuse flag is false and the history state
    reference is the newly allocated empty object. *)
Theorem hydrateNativeHistory_appends (session : LlamaChatSession) (h : list Message)
    (fresh : nat) :
  let items := convertToChatHistory h in
  let existing := default [] (_chatHistory session) in
  let session' := hydrateNativeHistory session h fresh in
  (items = [] -> session' = session)
  /\ (items <> [] ->
      _chatHistory session' = Some (existing ++ items)
      /\ _lastEvaluation session' = None
      /\ _canUseContextWindowForCompletion session' = Some false
      /\ _chatHistoryStateRef session' = Some {| address := fresh; fields := ∅ |}
      /\ contextSequence session' = contextSequence session
      /\ systemPrompt session' = systemPrompt session)
  /\ (forall i x, existing !! i = Some x ->
      items <> [] -> default [] (_chatHistory session') !! i = Some x)
  /\ (items = [] <-> h = []).
Proof.
  intros items existing session'. subst session'. unfold hydrateNativeHistory.
  fold items. fold existing. split; [|split; [|split]].
  - intros ->. reflexivity.
  - intros Hne. destruct items as [|x items]; [contradiction|]. simpl.
    repeat split.
  - intros i x Hi Hne. destruct items as [|y items]; [contradiction|]. simpl.
    apply lookup_app_l_Some. exact Hi.
  - apply convertToChatHistory_nil_iff.
Qed.

Lemma hydrateNativeHistory_appends_witness :
  _chatHistory (hydrateNativeHistory fresh_session history_a_bc_d 2)
  = Some [ChatSystemMessage "be brief"; ChatUserMessage "a";
          ChatModelResponse ["b"; "c"]; ChatUserMessage "d"]
  /\ _lastEvaluation (hydrateNativeHistory fresh_session history_a_bc_d 2) = None
  /\ _canUseContextWindowForCompletion
       (hydrateNativeHistory fresh_session history_a_bc_d 2) = Some false.
Proof.
  destruct (proj1 (proj2 (hydrateNativeHistory_appends fresh_session history_a_bc_d 2))
              ltac:(vm_compute; discriminate))
    as (H1 & H2 & H3 & _).
  split; [exact H1 | split; [exact H2 | exact H3]].
Defined.

(** ** Prompt options *)

Lemma lookup_assignIfFinite key value (options : gmap string JsValue) k :
  assignIfFinite key value options !! k
  = if bool_decide (k = key)
    then match presentNumber value with
         | Some v => Some v
         | None => options !! k
         end
    else options !! k.
Proof.
  unfold assignIfFinite, presentNumber, isFiniteNumber.
  destruct value as [x|]; [destruct (PrimFloat.is_finite x)|];
    case_bool_decide; subst; simplify_map_eq; reflexivity.
Qed.

Lemma lookup_assignIfTruthy key value (options : gmap string JsValue) k :
  assignIfTruthy key value options !! k
  = if bool_decide (k = key)
    then match presentPrefix value with
         | Some v => Some v
         | None => options !! k
         end
    else options !! k.
Proof.
  unfold assignIfTruthy, presentPrefix, truthy.
  destruct value as [s|]; [destruct (bool_decide (s = ""))|];
    case_bool_decide; subst; simplify_map_eq; reflexivity.
Qed.

Lemma getPromptOptions_lookup (this : LlamaClient) (k : string) :
  let cfg := generationConfig this in
  (assignIfTruthy "responsePrefix" (responsePrefix cfg)
     (assignIfFinite "seed" (seed cfg)
        (assignIfFinite "maxTokens" (maxTokens cfg)
           (assignIfFinite "minP" (minP cfg)
              (assignIfFinite "topK" (topK cfg)
                 (assignIfFinite "topP" (topP cfg)
                    (assignIfFinite "temperature" (temperature cfg) ∅)))))))
    !! k
  = expectedOption cfg k.
Proof.
  intros cfg. rewrite lookup_assignIfTruthy, !lookup_assignIfFinite, lookup_empty.
  unfold expectedOption.
  repeat (case_bool_decide; [subst k; simpl|]);
    repeat match goal with
           | |- context [match ?x with Some _ => _ | None => _ end] => destruct x
           end; reflexivity.
Qed.

Lemma getPromptOptions_cases (this : LlamaClient) :
  (exists o, getPromptOptions this = Some o
             /\ o <> ∅
             /\ forall k, o !! k = expectedOption (generationConfig this) k)
  \/ (getPromptOptions this = None
      /\ forall k, expectedOption (generationConfig this) k = None).
Proof.
  unfold getPromptOptions.
  set (o := assignIfTruthy _ _ _).
  assert (forall k, o !! k = expectedOption (generationConfig this) k) as Hlook
    by (intros k; apply getPromptOptions_lookup).
  destruct (0 <? size o)%nat eqn:Hsize.
  - left. exists o. split; [reflexivity|]. split; [|exact Hlook].
    intros ->. rewrite map_size_empty in Hsize. discriminate.
  - right. split; [reflexivity|]. intros k. rewrite <- Hlook.
    apply Nat.ltb_ge in Hsize.
    assert (o = ∅) as -> by (apply map_size_empty_iff; lia).
    apply lookup_empty.
Qed.

Lemma presentPrefix_fromEnvironment (env : option string) :
  presentPrefix (responsePrefixFromEnvironment env)
  = match env with
    | Some s => if bool_decide (trim s = "") then None else Some (VStr (trim s))
    | None => None
    end.
Proof.
  unfold responsePrefixFromEnvironment, presentPrefix, truthy.
  destruct env as [s|]; [|reflexivity].
  destruct (bool_decide (trim s = "")) eqn:H; simpl; [reflexivity|].
  rewrite H. reflexivity.
Qed.

Lemma trim_examples :
  trim "  be brief  " = "be brief" /\ trim " " = "" /\ trim "a b" = "a b"
  /\ responsePrefixFromEnvironment (Some " ") = None
  /\ responsePrefixFromEnvironment (Some " > ") = Some ">".
Proof. vm_compute. repeat split. Qed.

(** A prefix of one space, or one with spaces around it, is forwarded as
    it is: [getPromptOptions] looks at truthiness only. *)
Lemma getPromptOptions_forwards_untrimmed_prefix :
  getPromptOptions (client_with config_blank_prefix)
  = Some {[ "responsePrefix" := VStr " " ]}
  /\ trim " " = ""
  /\ getPromptOptions (client_with config_padded_prefix)
     = Some {[ "responsePrefix" := VStr " > " ]}
  /\ trim " > " <> " > ".
Proof. vm_compute. repeat split. discriminate. Qed.

(** C7, amended: [getPromptOptions] returns a record holding exactly the
    numeric fields of the generation config that are set and finite and
    the response prefix when it is set and not the empty string, each with
    the value the config holds (the prefix is not trimmed here), and it
    returns [undefined] (no record, not an empty one) exactly when no field
    applies.  With every field unset the result is [undefined]; with only
    [temperature = 0.7] it is [{temperature: 0.7}].  For a config built by
    [fromEnvironment] the prefix held is the trimmed environment value,
    present when that is not empty. *)
Theorem getPromptOptions_sparse (this : LlamaClient) :
  let cfg := generationConfig this in
  (forall o, getPromptOptions this = Some o ->
     o <> ∅ /\ forall k, o !! k = expectedOption cfg k)
  /\ (getPromptOptions this = None <-> forall k, expectedOption cfg k = None)
  /\ (cfg = DEFAULT_GENERATION_CONFIG -> getPromptOptions this = None)
  /\ (cfg = config_temperature_0_7 ->
      getPromptOptions this = Some {[ "temperature" := VNum number_0_7 ]})
  /\ (forall env o,
        responsePrefix cfg = responsePrefixFromEnvironment env ->
        getPromptOptions this = Some o ->
        o !! "responsePrefix"
        = match env with
          | Some s => if bool_decide (trim s = "") then None else Some (VStr (trim s))
          | None => None
          end).
Proof.
  intros cfg. subst cfg.
  destruct (getPromptOptions_cases this) as [(o & Ho & Hne & Hlook) | [Hnone Hall]].
  - rewrite Ho. split; [|split; [|split; [|split]]].
    + intros o' [= <-]. split; assumption.
    + split; [discriminate|]. intros Hall. exfalso. apply Hne.
      apply map_eq. intros k. rewrite Hlook, Hall, lookup_empty. reflexivity.
    + intros Hcfg. exfalso. apply Hne. apply map_eq. intros k.
      rewrite Hlook, Hcfg, lookup_empty. unfold expectedOption.
      repeat case_bool_decide; reflexivity.
    + intros Hcfg. f_equal. apply map_eq. intros k. rewrite Hlook, Hcfg.
      unfold expectedOption.
      case_bool_decide as Hk; [subst k; reflexivity|].
      rewrite lookup_singleton_ne by congruence.
      repeat case_bool_decide; reflexivity.
    + intros env o' Henv [= <-]. rewrite Hlook. unfold expectedOption. simpl.
      rewrite Henv. apply presentPrefix_fromEnvironment.
  - rewrite Hnone. split; [|split; [|split; [|split]]].
    + intros o [=].
    + split; [intros _; exact Hall | reflexivity].
    + reflexivity.
    + intros Hcfg. specialize (Hall "temperature"). rewrite Hcfg in Hall.
      vm_compute in Hall. discriminate.
    + intros env o _ [=].
Qed.

Lemma getPromptOptions_sparse_witness :
  getPromptOptions (client_with DEFAULT_GENERATION_CONFIG) = None
  /\ getPromptOptions (client_with config_temperature_0_7)
     = Some {[ "temperature" := VNum number_0_7 ]}.
Proof.
  split.
  - apply (proj1 (proj2 (proj2
             (getPromptOptions_sparse (client_with DEFAULT_GENERATION_CONFIG))))).
    reflexivity.
  - apply (proj1 (proj2 (proj2 (proj2
             (getPromptOptions_sparse (client_with config_temperature_0_7)))))).
    reflexivity.
Defined.

(** ** The cache key names the fingerprint *)

Lemma pretty_N_go_no_bar (x : N) (s : string) :
  containsBar s = false -> containsBar (pretty_N_go x s) = false.
Proof.
  revert s. induction (N.lt_wf_0 x) as [x _ IH]; intros s Hs.
  destruct (decide (x = 0%N)) as [->|Hne].
  - rewrite pretty_N_go_0. exact Hs.
  - rewrite pretty_N_go_step by lia. apply IH.
    + apply N.div_lt; lia.
    + unfold pretty_N_char. repeat case_match; simpl; exact Hs.
Qed.

Lemma pretty_Z_no_bar (z : Z) : containsBar (pretty z) = false.
Proof.
  assert (forall x : positive, containsBar (pretty x) = false) as Hpos.
  { intros x. unfold pretty, pretty_positive, pretty, pretty_N.
    case_decide; [reflexivity|]. apply pretty_N_go_no_bar. reflexivity. }
  destruct z as [|x|x]; [reflexivity | apply Hpos |].
  change (pretty (Z.neg x)) with (String "-" (pretty x)).
  simpl. apply Hpos.
Qed.

Lemma containsBar_app (s1 s2 : string) :
  containsBar (s1 +:+ s2) = containsBar s1 || containsBar s2.
Proof.
  induction s1 as [|c s1 IH]; [reflexivity|].
  change (String c s1 +:+ s2) with (String c (s1 +:+ s2)).
  simpl. rewrite IH. apply orb_assoc.
Qed.

Lemma split_at_last_bar (s1 s2 d1 d2 : string) :
  containsBar d1 = false -> containsBar d2 = false ->
  s1 +:+ "|" +:+ d1 = s2 +:+ "|" +:+ d2 -> s1 = s2 /\ d1 = d2.
Proof.
  intros H1 H2. revert s2.
  induction s1 as [|c s1 IH]; intros [|c' s2] Heq.
  - change (String "|" d1 = String "|" d2) in Heq.
    injection Heq as ->. auto.
  - change (String "|" d1 = String c' (s2 +:+ String "|" d2)) in Heq.
    injection Heq as _ ->. rewrite containsBar_app in H1.
    simpl in H1. rewrite orb_true_r in H1. discriminate.
  - change (String c (s1 +:+ String "|" d1) = String "|" d2) in Heq.
    injection Heq as _ <-. rewrite containsBar_app in H2.
    simpl in H2. rewrite orb_true_r in H2. discriminate.
  - change (String c (s1 +:+ "|" +:+ d1) = String c' (s2 +:+ "|" +:+ d2)) in Heq.
    injection Heq as -> Heq. destruct (IH _ Heq) as [-> ->]. auto.
Qed.

Lemma cacheKeyOf_fingerprint (this this' : LlamaClient) :
  cacheKeyOf this' = cacheKeyOf this
  <-> modelPath this' = modelPath this /\ gpuLayers this' = gpuLayers this.
Proof.
  unfold cacheKeyOf. split.
  - intros Heq.
    apply split_at_last_bar in Heq as [Hp Hl]; try apply pretty_Z_no_bar.
    split; [exact Hp|]. apply (inj pretty). exact Hl.
  - intros [-> ->]. reflexivity.
Qed.

(** ** The model cache *)

Lemma loadModel_hit (this : LlamaClient) (w : World) (p : nat) :
  modelCache w !! cacheKeyOf this = Some p ->
  loadModel this w = (w, Some p).
Proof.
  intros H. unfold loadModel. rewrite bool_decide_eq_true_2 by (rewrite H; eauto).
  simpl. rewrite H. reflexivity.
Qed.

Lemma loadModel_miss (this : LlamaClient) (w : World) :
  modelCache w !! cacheKeyOf this = None ->
  loadModel this w
  = (with_modelCache
       (<[cacheKeyOf this := length (modelPromises w)]> (modelCache w))
       (with_modelPromises
          (modelPromises w ++ [AwaitingGetLlama (cacheKeyOf this) this])
          (with_getLlamaCalls (getLlamaCalls w ++ [cacheKeyOf this]) w)),
     Some (length (modelPromises w))).
Proof.
  intros H. unfold loadModel.
  rewrite bool_decide_eq_false_2 by (rewrite H; intros [? [=]]).
  simpl. rewrite lookup_insert_eq. reflexivity.
Qed.

Lemma createChatSession_world this systemInstruction initialHistory w :
  fst (createChatSession this systemInstruction initialHistory w)
  = let w1 := fst (loadModel this w) in
    with_wrappers
      (wrappers w
         ++ [{| history := default [] initialHistory;
                sessionPromise := length (sessionPromises w);
                client := this |}])
      (with_sessionPromises
         (sessionPromises w
            ++ [AwaitingModel this (snd (loadModel this w)) systemInstruction
                  (Some (default [] initialHistory))]) w1).
Proof.
  unfold createChatSession, newLlamaChatSessionWrapper, createNativeSession.
  destruct (modelCache w !! cacheKeyOf this) as [p|] eqn:H.
  - rewrite (loadModel_hit _ _ _ H). reflexivity.
  - rewrite (loadModel_miss _ _ H). reflexivity.
Qed.

(** ** Invariants of the reachable worlds *)

Ltac invert_step H :=
  match type of H with
  | step ?ev _ = Some _ =>
      destruct ev; simpl in H;
      unfold resumeGetLlama, settleLlamaLoadModel, resumeLoadModel, settleContext,
        sendMessage, resumeGetNativeSession, settlePrompt, catchLoadError in H;
      repeat case_match; simplify_eq/=
  end.

Ltac updated_elsewhere Hp :=
  apply list_lookup_insert_Some in Hp as [(?&?&?)|[? Hp]]; [discriminate|].

Lemma step_awaitingOwnsEntry ev w w' :
  awaitingOwnsEntry w -> step ev w = Some w' -> awaitingOwnsEntry w'.
Proof.
  intros Hinv Hstep p key this'. invert_step Hstep.
  all: try (apply Hinv).
  - intros Hp. apply lookup_app_Some in Hp as [Hp | [Hlen Hp]].
    + assert (key <> cacheKeyOf this) as Hne.
      { intros ->. apply Hinv in Hp.
        rewrite Hp in H. rewrite bool_decide_eq_true_2 in H by eauto. discriminate. }
      rewrite lookup_insert_ne by congruence. eapply Hinv, Hp.
    + apply list_lookup_singleton_Some in Hp as [Hp [= <- <-]].
      replace p with (length (modelPromises w)) by lia.
      apply lookup_insert_eq.
  - intros Hp. updated_elsewhere Hp. eapply Hinv, Hp.
  - intros Hp. updated_elsewhere Hp.
    pose proof (Hinv _ _ _ Hp) as Hk.
    rewrite lookup_delete_ne; [exact Hk|].
    intros ->. match goal with
    | H0 : modelPromises w !! ?q = Some (AwaitingGetLlama key _) |- _ =>
        apply Hinv in H0; congruence
    end.
  - intros Hp. updated_elsewhere Hp.
    pose proof (Hinv _ _ _ Hp) as Hk.
    rewrite lookup_delete_ne; [exact Hk|].
    intros ->. match goal with
    | H0 : modelPromises w !! ?q = Some (AwaitingGetLlama key _) |- _ =>
        apply Hinv in H0; congruence
    end.
  - intros Hp. updated_elsewhere Hp. eapply Hinv, Hp.
  - intros Hp. updated_elsewhere Hp. eapply Hinv, Hp.
Qed.

Lemma step_cacheAllocated ev w w' :
  cacheAllocated w -> step ev w = Some w' -> cacheAllocated w'.
Proof.
  intros Hinv Hstep key p. invert_step Hstep.
  all: rewrite ?length_insert, ?length_app; simpl.
  all: try (apply Hinv).
  - intros Hp. apply lookup_insert_Some in Hp as [[_ <-]|[_ Hp]]; [lia|].
    apply Hinv in Hp. lia.
  - intros Hp. apply lookup_delete_Some in Hp as [_ Hp]. eapply Hinv, Hp.
  - intros Hp. apply lookup_delete_Some in Hp as [_ Hp]. eapply Hinv, Hp.
Qed.

Lemma step_promptingHasSession ev w w' :
  promptingHasSession w -> step ev w = Some w' -> promptingHasSession w'.
Proof.
  intros Hinv Hstep c wr t. invert_step Hstep; intros Hc.
  all: try updated_elsewhere Hc.
  all: try (apply lookup_app_Some in Hc as [Hc | [_ Hc]];
            [|apply list_lookup_singleton_Some in Hc as [_ [=]]]).
  all: try (destruct (Hinv _ _ _ Hc) as (wrapper0 & session0 & Hw & Hs)).
  all: try (exists wrapper0, session0; split; [first [exact Hw | apply lookup_app_l_Some, Hw]|];
            first [exact Hs | apply lookup_app_l_Some, Hs
                  | rewrite list_lookup_insert_ne; [exact Hs | intros ->; congruence]]).
  - apply list_lookup_insert_Some in Hc as [(-> & [= <- <-] & _)|[_ Hc]].
    + eauto.
    + apply Hinv in Hc. exact Hc.
  - destruct (decide (wr = wrapper)) as [->|Hne].
    + eexists _, session0. split.
      * apply list_lookup_insert_eq. eapply lookup_lt_Some, Hw.
      * simpl. congruence.
    + exists wrapper0, session0. split; [|exact Hs].
      rewrite list_lookup_insert_ne by congruence. exact Hw.
Qed.

Lemma reachable_wellFormed w : reachable w -> wellFormed w.
Proof.
  induction 1 as [|ev w w' _ (I1 & I2 & I3) Hstep].
  - repeat split; intros ?; intros; simplify_eq/=.
    all: rewrite ?lookup_empty in *; try discriminate.
  - repeat split;
      eauto using step_awaitingOwnsEntry, step_promptingHasSession, step_cacheAllocated.
Qed.

(** ** One load per cache entry *)

Lemma step_cache_entry key p ev w w' :
  modelCache w !! key = Some p -> step ev w = Some w' ->
  modelCache w' !! key = Some p \/ modelCache w' !! key = None.
Proof.
  intros Hk Hstep. invert_step Hstep; auto.
  - left. rewrite lookup_insert_ne; [exact Hk|].
    intros Heq. rewrite Heq, Hk in H.
    rewrite bool_decide_eq_true_2 in H by eauto. discriminate.
  - destruct (decide (cacheKey = key)) as [->|Hne].
    + right. apply lookup_delete_eq.
    + left. rewrite lookup_delete_ne by exact Hne. exact Hk.
  - destruct (decide (cacheKey = key)) as [->|Hne].
    + right. apply lookup_delete_eq.
    + left. rewrite lookup_delete_ne by exact Hne. exact Hk.
Qed.

Lemma step_getLlamaCount key p ev w w' :
  modelCache w !! key = Some p -> step ev w = Some w' ->
  getLlamaCount key w' = getLlamaCount key w.
Proof.
  intros Hk Hstep. unfold getLlamaCount. invert_step Hstep; auto.
  rewrite filter_app, length_app.
  rewrite filter_cons_False, filter_nil; [simpl; lia|].
  intros Heq. rewrite Heq, Hk in H.
  rewrite bool_decide_eq_true_2 in H by eauto. discriminate.
Qed.

Lemma step_model_settled p st ev w w' :
  modelSettled st -> modelPromises w !! p = Some st -> step ev w = Some w' ->
  modelPromises w' !! p = Some st.
Proof.
  intros Hst Hp Hstep. invert_step Hstep; auto.
  all: try (apply lookup_app_l_Some; exact Hp).
  all: rewrite list_lookup_insert_ne; [exact Hp|];
    intros ->; rewrite Hp in *; simplify_eq; contradiction.
Qed.

Lemma awaitingGetLlamaAt_cases p w :
  awaitingGetLlamaAt p w = 0
  \/ (awaitingGetLlamaAt p w = 1
      /\ exists key this, modelPromises w !! p = Some (AwaitingGetLlama key this)).
Proof.
  unfold awaitingGetLlamaAt.
  destruct (modelPromises w !! p) as [[]|]; eauto.
Qed.

Lemma step_awaitingGetLlamaAt p ev w w' :
  p < length (modelPromises w) -> step ev w = Some w' ->
  awaitingGetLlamaAt p w' <= awaitingGetLlamaAt p w.
Proof.
  intros Hlt Hstep. invert_step Hstep; auto.
  all: unfold awaitingGetLlamaAt; simpl.
  - rewrite lookup_app_l by exact Hlt. reflexivity.
  - destruct (decide (p0 = p)) as [->|Hne].
    + rewrite list_lookup_insert_eq by exact Hlt. lia.
    + rewrite list_lookup_insert_ne by exact Hne. reflexivity.
  - destruct (decide (p0 = p)) as [->|Hne].
    + rewrite list_lookup_insert_eq by exact Hlt. lia.
    + rewrite list_lookup_insert_ne by exact Hne. reflexivity.
  - destruct (decide (p0 = p)) as [->|Hne].
    + rewrite list_lookup_insert_eq by exact Hlt. lia.
    + rewrite list_lookup_insert_ne by exact Hne. reflexivity.
  - destruct (decide (p0 = p)) as [->|Hne].
    + rewrite list_lookup_insert_eq by exact Hlt. lia.
    + rewrite list_lookup_insert_ne by exact Hne. reflexivity.
  - destruct (decide (p0 = p)) as [->|Hne].
    + rewrite list_lookup_insert_eq by exact Hlt. lia.
    + rewrite list_lookup_insert_ne by exact Hne. reflexivity.
Qed.

Lemma step_llamaLoadModelCount key p ev w w' :
  wellFormed w -> modelCache w !! key = Some p -> step ev w = Some w' ->
  llamaLoadModelCount key w' = llamaLoadModelCount key w
  \/ (llamaLoadModelCount key w' = llamaLoadModelCount key w + 1
      /\ awaitingGetLlamaAt p w = 1 /\ awaitingGetLlamaAt p w' = 0).
Proof.
  intros (I1 & _ & I3) Hk Hstep.
  pose proof (I3 _ _ Hk) as Hlt.
  invert_step Hstep; auto.
  all: match goal with
       | H0 : modelPromises _ !! ?q = Some (AwaitingGetLlama ?k _) |- _ =>
           pose proof (I1 _ _ _ H0) as Hown;
           destruct (decide (k = key)) as [->|Hne];
           [ right; assert (q = p) as -> by congruence;
             unfold llamaLoadModelCount, awaitingGetLlamaAt; simpl;
             rewrite H0, filter_app, length_app, list_lookup_insert_eq by exact Hlt;
             rewrite filter_cons_True by reflexivity; simpl; lia
           | left; unfold llamaLoadModelCount; simpl;
             rewrite filter_app, length_app, filter_cons_False by exact Hne;
             simpl; lia ]
       end.
Qed.

Lemma run_present_entry key p evs w w' :
  reachable w -> modelCache w !! key = Some p ->
  run evs w = Some w' -> presentThroughout key evs w ->
  reachable w'
  /\ modelCache w' !! key = Some p
  /\ (forall a, a ∈ acquisitions evs w -> a.1 = key -> a.2 = Some p)
  /\ getLlamaCount key w' = getLlamaCount key w
  /\ llamaLoadModelCount key w' + awaitingGetLlamaAt p w'
     <= llamaLoadModelCount key w + awaitingGetLlamaAt p w
  /\ (forall st, modelSettled st -> modelPromises w !! p = Some st ->
      modelPromises w' !! p = Some st).
Proof.
  revert w. induction evs as [|ev evs IH]; intros w Hreach Hk Hrun Hpres.
  - simpl in Hrun. simplify_eq. repeat split; auto.
    intros a Ha. inversion Ha.
  - simpl in Hrun, Hpres. destruct (step ev w) as [w1|] eqn:Hstep; [|discriminate].
    destruct Hpres as [_ Hpres].
    assert (reachable w1) as Hreach1 by (eapply reachable_step; eauto).
    assert (modelCache w1 !! key = Some p) as Hk1.
    { destruct (step_cache_entry _ _ _ _ _ Hk Hstep) as [H1|H1]; [exact H1|].
      destruct evs; simpl in Hpres; destruct Hpres as [[x Hx] _]; congruence. }
    destruct (IH w1 Hreach1 Hk1 Hrun Hpres) as (R & C & A & G & L & S).
    pose proof (reachable_wellFormed _ Hreach) as Hwf.
    split; [exact R|]. split; [exact C|]. split; [|split; [|split]].
    + intros a Ha Hkey. simpl in Ha. rewrite Hstep in Ha.
      apply elem_of_app in Ha as [Ha|Ha]; [|exact (A a Ha Hkey)].
      destruct ev; try (inversion Ha; fail).
      apply list_elem_of_singleton in Ha as ->.
      change (cacheKeyOf this = key) in Hkey.
      change (snd (loadModel this w) = Some p).
      rewrite <- Hkey in Hk. rewrite (loadModel_hit _ _ _ Hk). reflexivity.
    + rewrite G. eapply step_getLlamaCount; eauto.
    + pose proof (step_awaitingGetLlamaAt p _ _ _ (proj2 (proj2 Hwf) _ _ Hk) Hstep).
      destruct (step_llamaLoadModelCount _ _ _ _ _ Hwf Hk Hstep) as [E|(E & E1 & E2)]; lia.
    + intros st Hst Hp. apply S; [exact Hst|]. eapply step_model_settled; eauto.
Qed.

Lemma step_cacheInjective ev w w' :
  cacheAllocated w -> cacheInjective w -> step ev w = Some w' -> cacheInjective w'.
Proof.
  intros I3 Hinv Hstep key1 key2 p. invert_step Hstep; try apply Hinv.
  - intros H1 H2.
    apply lookup_insert_Some in H1 as [[<- <-]|[Hn1 H1]];
      apply lookup_insert_Some in H2 as [[<- H2]|[Hn2 H2]]; try reflexivity.
    + apply I3 in H2. lia.
    + apply I3 in H1. lia.
    + eapply Hinv; eauto.
  - intros H1 H2. apply lookup_delete_Some in H1 as [_ H1].
    apply lookup_delete_Some in H2 as [_ H2]. eapply Hinv; eauto.
  - intros H1 H2. apply lookup_delete_Some in H1 as [_ H1].
    apply lookup_delete_Some in H2 as [_ H2]. eapply Hinv; eauto.
Qed.

Lemma reachable_cacheInjective w : reachable w -> cacheInjective w.
Proof.
  induction 1 as [|ev w w' Hreach IH Hstep].
  - intros key1 key2 p H1. simpl in H1. rewrite lookup_empty in H1. discriminate.
  - pose proof (reachable_wellFormed _ Hreach) as (_ & _ & I3).
    eapply step_cacheInjective; eauto.
Qed.

Lemma awaitingGetLlamaAt_same p w w' :
  modelPromises w' !! p = modelPromises w !! p ->
  awaitingGetLlamaAt p w' = awaitingGetLlamaAt p w.
Proof. unfold awaitingGetLlamaAt. intros ->. reflexivity. Qed.

Lemma llamaLoadModelCount_logged key key0 args w w' :
  llamaLoadModelCalls w' = llamaLoadModelCalls w ++ [(key0, args)] ->
  llamaLoadModelCount key w'
  = llamaLoadModelCount key w + (if bool_decide (key0 = key) then 1 else 0).
Proof.
  unfold llamaLoadModelCount. intros ->. rewrite filter_app, length_app.
  case_bool_decide as Hk.
  - rewrite filter_cons_True by exact Hk. reflexivity.
  - rewrite filter_cons_False by exact Hk. reflexivity.
Qed.

(** While the entry of [key] stays, the number of [llama.loadModel] calls
    for it plus the load still waiting for [getLlama] does not change. *)
Lemma step_load_started_once key p ev w w' :
  wellFormed w -> cacheInjective w ->
  modelCache w !! key = Some p -> step ev w = Some w' ->
  modelCache w' !! key = Some p ->
  llamaLoadModelCount key w' + awaitingGetLlamaAt p w'
  = llamaLoadModelCount key w + awaitingGetLlamaAt p w.
Proof.
  intros (I1 & _ & I3) Hinj Hk Hstep Hk'.
  pose proof (I3 _ _ Hk) as Hlt.
  invert_step Hstep; auto.
  - f_equal. apply awaitingGetLlamaAt_same. simpl. apply lookup_app_l. exact Hlt.
  - match goal with
    | H0 : modelPromises _ !! ?q = Some (AwaitingGetLlama ?k _) |- _ =>
        pose proof (I1 _ _ _ H0) as Hown; rename H0 into Hq
    end.
    erewrite llamaLoadModelCount_logged by reflexivity.
    destruct (decide (p0 = p)) as [->|Hne].
    + rewrite (Hinj _ _ _ Hown Hk), bool_decide_eq_true_2 by reflexivity.
      unfold awaitingGetLlamaAt. simpl.
      rewrite Hq, list_lookup_insert_eq by exact Hlt. lia.
    + rewrite bool_decide_eq_false_2 by (intros ->; congruence).
      f_equal; [lia|]. apply awaitingGetLlamaAt_same. simpl.
      apply list_lookup_insert_ne. exact Hne.
  - match goal with
    | H0 : modelPromises _ !! ?q = Some (AwaitingGetLlama ?k _) |- _ =>
        pose proof (I1 _ _ _ H0) as Hown; rename H0 into Hq
    end.
    assert (cacheKey <> key) as Hkey
      by (intros ->; rewrite lookup_delete_eq in Hk'; discriminate).
    erewrite llamaLoadModelCount_logged by reflexivity.
    rewrite bool_decide_eq_false_2 by exact Hkey.
    f_equal; [lia|]. apply awaitingGetLlamaAt_same. simpl.
    apply list_lookup_insert_ne. intros ->. apply Hkey. eapply Hinj; eauto.
  - match goal with
    | H0 : modelPromises _ !! ?q = Some (AwaitingGetLlama ?k _) |- _ =>
        pose proof (I1 _ _ _ H0) as Hown; rename H0 into Hq
    end.
    assert (cacheKey <> key) as Hkey
      by (intros ->; rewrite lookup_delete_eq in Hk'; discriminate).
    f_equal. apply awaitingGetLlamaAt_same. simpl.
    apply list_lookup_insert_ne. intros ->. apply Hkey. eapply Hinj; eauto.
  - f_equal. unfold awaitingGetLlamaAt. simpl.
    destruct (decide (p0 = p)) as [->|Hne].
    + rewrite list_lookup_insert_eq by exact Hlt.
      match goal with H0 : modelPromises _ !! p = Some AdoptingLoadModel |- _ =>
        rewrite H0 end. reflexivity.
    + rewrite list_lookup_insert_ne by exact Hne. reflexivity.
  - f_equal. unfold awaitingGetLlamaAt. simpl.
    destruct (decide (p0 = p)) as [->|Hne].
    + rewrite list_lookup_insert_eq by exact Hlt.
      match goal with H0 : modelPromises _ !! p = Some AdoptingLoadModel |- _ =>
        rewrite H0 end. reflexivity.
    + rewrite list_lookup_insert_ne by exact Hne. reflexivity.
Qed.

Lemma run_load_started_once key p evs w w' :
  reachable w -> modelCache w !! key = Some p ->
  run evs w = Some w' -> presentThroughout key evs w ->
  llamaLoadModelCount key w' + awaitingGetLlamaAt p w'
  = llamaLoadModelCount key w + awaitingGetLlamaAt p w.
Proof.
  revert w. induction evs as [|ev evs IH]; intros w Hreach Hk Hrun Hpres.
  - simpl in Hrun. simplify_eq. reflexivity.
  - simpl in Hrun, Hpres. destruct (step ev w) as [w1|] eqn:Hstep; [|discriminate].
    destruct Hpres as [_ Hpres].
    assert (modelCache w1 !! key = Some p) as Hk1.
    { destruct (step_cache_entry _ _ _ _ _ Hk Hstep) as [H1|H1]; [exact H1|].
      destruct evs; simpl in Hpres; destruct Hpres as [[x Hx] _]; congruence. }
    rewrite (IH w1 (reachable_step _ _ _ Hreach Hstep) Hk1 Hrun Hpres).
    apply (step_load_started_once key p ev w w1);
      [apply reachable_wellFormed; exact Hreach
      |apply reachable_cacheInjective; exact Hreach
      |exact Hk | exact Hstep | exact Hk1].
Qed.

Lemma awaitingGetLlamaAt_le_1 p w : awaitingGetLlamaAt p w <= 1.
Proof. destruct (awaitingGetLlamaAt_cases p w) as [->|[-> _]]; lia. Qed.

(** C1: the cache key of a client names its fingerprint (model path and
    layer count).  When the cache has no entry for it, [loadModel] calls
    the loader once and stores the pending promise: [getLlama] is called
    at once, and [llama.loadModel] is called, with the path and the layer
    count of the fingerprint, when [getLlama] has resolved; the promise
    then settles as the load does.  While the entry is present every other
    acquisition for that fingerprint returns the same promise without
    calling the loader: the [getLlama] calls for it stay as they are, and
    the [llama.loadModel] calls for it together with the load still
    waiting for [getLlama] stay exactly one.  A settled promise keeps its
    state, and everyone waiting for it resumes with that one state. *)
Theorem loadModel_once_per_entry (this : LlamaClient) (w : World) :
  reachable w ->
  let key := cacheKeyOf this in
  (forall this', cacheKeyOf this' = key
                 <-> modelPath this' = modelPath this /\ gpuLayers this' = gpuLayers this)
  /\ (modelCache w !! key = None ->
     let p := length (modelPromises w) in
     snd (loadModel this w) = Some p
     /\ modelPromises (fst (loadModel this w)) !! p = Some (AwaitingGetLlama key this)
     /\ modelCache (fst (loadModel this w)) !! key = Some p
     /\ getLlamaCalls (fst (loadModel this w)) = getLlamaCalls w ++ [key]
     /\ llamaLoadModelCalls (fst (loadModel this w)) = llamaLoadModelCalls w
     /\ (forall systemInstruction h evs w2,
          run (CreateChatSession this systemInstruction h :: evs) w = Some w2 ->
          presentThroughout key evs (fst (createChatSession this systemInstruction h w)) ->
          (forall a, a ∈ acquisitions (CreateChatSession this systemInstruction h :: evs) w ->
                     a.1 = key -> a.2 = Some p)
          /\ getLlamaCount key w2 = getLlamaCount key w + 1
          /\ llamaLoadModelCount key w2 + awaitingGetLlamaAt p w2
             = llamaLoadModelCount key w + 1
          /\ llamaLoadModelCount key w2 <= llamaLoadModelCount key w + 1)
     /\ (forall systemInstruction h m,
          exists w3,
            run [CreateChatSession this systemInstruction h;
                 GetLlamaSettled p (Resolves ReturnsPromise);
                 LlamaLoadModelSettled p (Resolves m)] w = Some w3
            /\ modelCache w3 !! key = Some p
            /\ modelPromises w3 !! p = Some (ModelFulfilled m)
            /\ getLlamaCalls w3 = getLlamaCalls w ++ [key]
            /\ llamaLoadModelCalls w3
               = llamaLoadModelCalls w ++ [(key, (modelPath this, gpuLayers this))]
            /\ getLlamaCount key w3 = getLlamaCount key w + 1
            /\ llamaLoadModelCount key w3 = llamaLoadModelCount key w + 1))
  /\ (forall p, modelCache w !! key = Some p ->
        loadModel this w = (w, Some p)
        /\ forall evs w2, run evs w = Some w2 -> presentThroughout key evs w ->
             modelCache w2 !! key = Some p
             /\ (forall a, a ∈ acquisitions evs w -> a.1 = key -> a.2 = Some p)
             /\ getLlamaCount key w2 = getLlamaCount key w
             /\ llamaLoadModelCount key w2 + awaitingGetLlamaAt p w2
                = llamaLoadModelCount key w + awaitingGetLlamaAt p w
             /\ llamaLoadModelCount key w2 <= llamaLoadModelCount key w + 1
             /\ (forall st, modelSettled st -> modelPromises w !! p = Some st ->
                   modelPromises w2 !! p = Some st))
  /\ (forall p key0 this0,
        modelPromises w !! p = Some (AwaitingGetLlama key0 this0) ->
        modelCache w !! key0 = Some p
        /\ exists w',
             step (GetLlamaSettled p (Resolves ReturnsPromise)) w = Some w'
             /\ llamaLoadModelCalls w'
                = llamaLoadModelCalls w ++ [(key0, (modelPath this0, gpuLayers this0))]
             /\ llamaLoadModelCount key0 w' = llamaLoadModelCount key0 w + 1
             /\ getLlamaCalls w' = getLlamaCalls w
             /\ modelCache w' = modelCache w
             /\ modelPromises w' !! p = Some AdoptingLoadModel
             /\ forall m,
                  exists w'',
                    step (LlamaLoadModelSettled p (Resolves m)) w' = Some w''
                    /\ modelPromises w'' !! p = Some (ModelFulfilled m)
                    /\ modelCache w'' = modelCache w
                    /\ llamaLoadModelCalls w'' = llamaLoadModelCalls w'
                    /\ getLlamaCalls w'' = getLlamaCalls w)
  /\ (forall p sp this' systemInstruction h,
        sessionPromises w !! sp
        = Some (AwaitingModel this' (Some p) systemInstruction h) ->
        (forall m, modelPromises w !! p = Some (ModelFulfilled m) ->
           exists w', resumeLoadModel sp w = Some w'
                      /\ sessionPromises w' !! sp
                         = Some (AwaitingContext this' m systemInstruction h))
        /\ (forall e, modelPromises w !! p = Some (ModelRejected e) ->
           exists w', resumeLoadModel sp w = Some w'
                      /\ sessionPromises w' !! sp = Some (SessionRejected e))).
Proof.
  intros Hreach key.
  assert (forall (w0 : World) p key0 this0,
            modelPromises w0 !! p = Some (AwaitingGetLlama key0 this0) ->
            exists w',
              step (GetLlamaSettled p (Resolves ReturnsPromise)) w0 = Some w'
              /\ llamaLoadModelCalls w'
                 = llamaLoadModelCalls w0 ++ [(key0, (modelPath this0, gpuLayers this0))]
              /\ llamaLoadModelCount key0 w' = llamaLoadModelCount key0 w0 + 1
              /\ getLlamaCalls w' = getLlamaCalls w0
              /\ modelCache w' = modelCache w0
              /\ modelPromises w' !! p = Some AdoptingLoadModel
              /\ forall m,
                   exists w'',
                     step (LlamaLoadModelSettled p (Resolves m)) w' = Some w''
                     /\ modelPromises w'' !! p = Some (ModelFulfilled m)
                     /\ modelCache w'' = modelCache w0
                     /\ llamaLoadModelCalls w'' = llamaLoadModelCalls w'
                     /\ getLlamaCalls w'' = getLlamaCalls w0) as Hload.
  { intros w0 p key0 this0 Hp.
    assert (p < length (modelPromises w0)) as Hlt by (eapply lookup_lt_Some; eauto).
    simpl. unfold resumeGetLlama. rewrite Hp.
    eexists. split; [reflexivity|]. simpl.
    split; [reflexivity|]. split.
    { erewrite llamaLoadModelCount_logged by reflexivity.
      rewrite bool_decide_eq_true_2 by reflexivity. reflexivity. }
    split; [reflexivity|]. split; [reflexivity|].
    split; [apply list_lookup_insert_eq; exact Hlt|].
    intros m. unfold settleLlamaLoadModel. simpl.
    rewrite list_lookup_insert_eq by exact Hlt.
    eexists. split; [reflexivity|]. simpl.
    split; [|repeat split].
    apply list_lookup_insert_eq. rewrite length_insert. exact Hlt. }
  split; [|split; [|split; [|split]]].
  - intros this'. apply cacheKeyOf_fingerprint.
  - intros Hnone p.
    pose proof (loadModel_miss this w Hnone) as Hmiss. fold key in Hmiss.
    rewrite Hmiss. simpl.
    split; [reflexivity|]. split; [apply list_lookup_middle; reflexivity|].
    split; [apply lookup_insert_eq|]. split; [reflexivity|]. split; [reflexivity|].
    assert (forall systemInstruction h,
              let w1 := fst (createChatSession this systemInstruction h w) in
              modelCache w1 = <[key := p]> (modelCache w)
              /\ modelPromises w1 = modelPromises w ++ [AwaitingGetLlama key this]
              /\ getLlamaCalls w1 = getLlamaCalls w ++ [key]
              /\ llamaLoadModelCalls w1 = llamaLoadModelCalls w) as Hcreated.
    { intros systemInstruction h w1. subst w1.
      rewrite createChatSession_world. fold key. rewrite Hmiss. simpl. repeat split. }
    split.
    + intros systemInstruction h evs w2 Hrun Hpres.
      change (run evs (fst (createChatSession this systemInstruction h w)) = Some w2) in Hrun.
      destruct (Hcreated systemInstruction h) as (Hc1 & Hp1 & Hg1 & Hl1).
      set (w1 := fst (createChatSession this systemInstruction h w)) in *.
      assert (step (CreateChatSession this systemInstruction h) w = Some w1) as Hstep
        by reflexivity.
      assert (reachable w1) as Hreach1 by (eapply reachable_step; eauto).
      assert (modelCache w1 !! key = Some p) as Hk1
        by (rewrite Hc1; apply lookup_insert_eq).
      destruct (run_present_entry key p evs w1 w2 Hreach1 Hk1 Hrun Hpres)
        as (_ & _ & A & G & L & _).
      pose proof (run_load_started_once key p evs w1 w2 Hreach1 Hk1 Hrun Hpres) as E.
      assert (awaitingGetLlamaAt p w1 = 1) as Haw.
      { unfold awaitingGetLlamaAt. rewrite Hp1.
        rewrite (list_lookup_middle (modelPromises w) [] _ _ eq_refl). reflexivity. }
      assert (llamaLoadModelCount key w1 = llamaLoadModelCount key w) as Hcount
        by (unfold llamaLoadModelCount; rewrite Hl1; reflexivity).
      split; [|split; [|split]].
      * intros a Ha Hkey.
        change (a ∈ [(cacheKeyOf this, snd (loadModel this w))] ++ acquisitions evs w1)
          in Ha.
        apply elem_of_app in Ha as [Ha|Ha]; [|exact (A a Ha Hkey)].
        apply list_elem_of_singleton in Ha as ->.
        change (snd (loadModel this w) = Some p). fold key. rewrite Hmiss. reflexivity.
      * rewrite G. unfold getLlamaCount. rewrite Hg1, filter_app, length_app.
        rewrite filter_cons_True by reflexivity. simpl. lia.
      * lia.
      * lia.
    + intros systemInstruction h m.
      destruct (Hcreated systemInstruction h) as (Hc1 & Hp1 & Hg1 & Hl1).
      set (w1 := fst (createChatSession this systemInstruction h w)) in *.
      assert (modelPromises w1 !! p = Some (AwaitingGetLlama key this)) as Hp
        by (rewrite Hp1; apply list_lookup_middle; reflexivity).
      destruct (Hload w1 p key this Hp) as (w' & S1 & L1 & C1 & G1 & K1 & P1 & Hsettle).
      destruct (Hsettle m) as (w'' & S2 & P2 & K2 & L2 & G2).
      exists w''. split.
      { change (match step (CreateChatSession this systemInstruction h) w with
                | Some w0 => run [GetLlamaSettled p (Resolves ReturnsPromise);
                                  LlamaLoadModelSettled p (Resolves m)] w0
                | None => None
                end = Some w'').
        change (step (CreateChatSession this systemInstruction h) w) with (Some w1).
        cbv iota beta.
        change (match step (GetLlamaSettled p (Resolves ReturnsPromise)) w1 with
                | Some w0 => run [LlamaLoadModelSettled p (Resolves m)] w0
                | None => None
                end = Some w'').
        rewrite S1.
        change (match step (LlamaLoadModelSettled p (Resolves m)) w' with
                | Some w0 => Some w0
                | None => None
                end = Some w'').
        rewrite S2. reflexivity. }
      split; [rewrite K2, Hc1; apply lookup_insert_eq|].
      split; [exact P2|]. split; [rewrite G2, Hg1; reflexivity|].
      split; [rewrite L2, L1, Hl1; reflexivity|]. split.
      * unfold getLlamaCount. rewrite G2, Hg1, filter_app, length_app.
        rewrite filter_cons_True by reflexivity. simpl. lia.
      * unfold llamaLoadModelCount in *. rewrite L2. rewrite C1, Hl1. reflexivity.
  - intros p Hk. split; [apply loadModel_hit; exact Hk|].
    intros evs w2 Hrun Hpres.
    destruct (run_present_entry key p evs w w2 Hreach Hk Hrun Hpres)
      as (_ & C & A & G & L & S).
    pose proof (run_load_started_once key p evs w w2 Hreach Hk Hrun Hpres) as E.
    pose proof (awaitingGetLlamaAt_le_1 p w).
    repeat split; auto. lia.
  - intros p key0 this0 Hp. split; [|apply Hload; exact Hp].
    apply (proj1 (reachable_wellFormed _ Hreach) _ _ _ Hp).
  - intros p sp this' systemInstruction h Hsp. unfold resumeLoadModel. rewrite Hsp.
    assert (sp < length (sessionPromises w)) as Hlt by (eapply lookup_lt_Some; eauto).
    split.
    + intros m ->. eexists. split; [reflexivity|]. simpl.
      apply list_lookup_insert_eq. exact Hlt.
    + intros e ->. eexists. split; [reflexivity|]. simpl.
      apply list_lookup_insert_eq. exact Hlt.
Qed.

Lemma loadModel_once_per_entry_witness :
  snd (loadModel example_client emptyWorld) = Some 0
  /\ loadModel example_client
       (fst (createChatSession example_client "be brief" None emptyWorld))
     = (fst (createChatSession example_client "be brief" None emptyWorld), Some 0)
  /\ exists w3,
       run [CreateChatSession example_client "be brief" None;
            GetLlamaSettled 0 (Resolves ReturnsPromise);
            LlamaLoadModelSettled 0 (Resolves (ModelHandle 1))] emptyWorld = Some w3
       /\ modelPromises w3 !! 0 = Some (ModelFulfilled (ModelHandle 1))
       /\ getLlamaCount (cacheKeyOf example_client) w3 = 1
       /\ llamaLoadModelCount (cacheKeyOf example_client) w3 = 1.
Proof.
  split; [|split].
  - apply (proj1 (proj1 (proj2 (loadModel_once_per_entry example_client emptyWorld
                                  reachable_empty)) eq_refl)).
  - apply (proj1 (proj1 (proj2 (proj2 (loadModel_once_per_entry example_client _
                           (reachable_step
                              (CreateChatSession example_client "be brief" None)
                              emptyWorld _ reachable_empty eq_refl))))
                    0 ltac:(vm_compute; reflexivity))).
  - destruct (proj1 (proj2 (loadModel_once_per_entry example_client emptyWorld
                              reachable_empty)) eq_refl)
      as (_ & _ & _ & _ & _ & _ & Hload).
    destruct (Hload "be brief" None (ModelHandle 1))
      as (w3 & Hrun & _ & Hp & _ & _ & Hg & Hl).
    exists w3. split; [exact Hrun|]. split; [exact Hp|]. split; [exact Hg | exact Hl].
Defined.

(** ** Load failures *)

(** When [getLlama] fails, or [llama.loadModel] throws, the [catch] block
    removes the entry and the next acquisition starts a new load. *)
Lemma getLlama_failure_evicts (w : World) (p : nat) (key : string)
    (this : LlamaClient) (e : JsError) (o : Outcome LoadCall) :
  o = Rejects e \/ o = Resolves (ThrowsSync e) ->
  modelPromises w !! p = Some (AwaitingGetLlama key this) ->
  exists w', resumeGetLlama p o w = Some w'
             /\ modelCache w' !! key = None
             /\ modelPromises w' !! p = Some (ModelRejected e).
Proof.
  intros Ho Hp. unfold resumeGetLlama. rewrite Hp.
  assert (p < length (modelPromises w)) as Hlt by (eapply lookup_lt_Some; eauto).
  destruct Ho as [-> | ->]; eexists; (split; [reflexivity|]); simpl;
    (split; [apply lookup_delete_eq | apply list_lookup_insert_eq; exact Hlt]).
Qed.

(** C2 does not hold on the code: when [getLlama] has succeeded and the
    promise returned by [llama.loadModel] is rejected, the cached promise is
    rejected but its entry stays in the cache, and every later acquisition
    for the key gets the rejected promise back without a new load. *)
Theorem rejected_load_stays_cached (w : World) (p : nat) (this : LlamaClient)
    (e : JsError) :
  modelCache w !! cacheKeyOf this = Some p ->
  modelPromises w !! p = Some AdoptingLoadModel ->
  exists w', settleLlamaLoadModel p (Rejects e) w = Some w'
             /\ modelPromises w' !! p = Some (ModelRejected e)
             /\ modelCache w' !! cacheKeyOf this = Some p
             /\ loadModel this w' = (w', Some p)
             /\ getLlamaCalls (fst (loadModel this w')) = getLlamaCalls w.
Proof.
  intros Hk Hp. unfold settleLlamaLoadModel. rewrite Hp.
  assert (p < length (modelPromises w)) as Hlt by (eapply lookup_lt_Some; eauto).
  eexists. split; [reflexivity|].
  split; [simpl; apply list_lookup_insert_eq; exact Hlt|].
  split; [exact Hk|].
  rewrite loadModel_hit with (p := p) by exact Hk. split; reflexivity.
Qed.

Lemma rejected_load_stays_cached_witness :
  exists w, run load_failure_run emptyWorld = Some w
            /\ modelPromises w !! 0 = Some (ModelRejected (Error "cannot read the weights"))
            /\ modelCache w !! cacheKeyOf example_client = Some 0
            /\ loadModel example_client w = (w, Some 0).
Proof.
  destruct (rejected_load_stays_cached
              (with_modelPromises [AdoptingLoadModel]
                 (with_llamaLoadModelCalls
                    [(cacheKeyOf example_client,
                      (modelPath example_client, gpuLayers example_client))]
                    (fst (createChatSession example_client "be brief" None emptyWorld))))
              0 example_client (Error "cannot read the weights")
              ltac:(vm_compute; reflexivity) ltac:(vm_compute; reflexivity))
    as (w' & Hs & Hp & Hk & Hl & _).
  exists w'. split; [|split; [exact Hp | split; [exact Hk | exact Hl]]].
  vm_compute in Hs. vm_compute. exact Hs.
Defined.

(** ** Chat sessions *)



(** A step keeps the session promise and the client of every wrapper; it
    keeps its history too, unless it is the successful end of a prompt of
    that wrapper, which appends the user message and the model message. *)
Lemma step_wrapper wr wrapper ev w w' :
  wrappers w !! wr = Some wrapper -> step ev w = Some w' ->
  exists wrapper',
    wrappers w' !! wr = Some wrapper'
    /\ sessionPromise wrapper' = sessionPromise wrapper
    /\ client wrapper' = client wrapper
    /\ (history wrapper' = history wrapper
        \/ exists c t r,
             ev = PromptSettled c (Resolves r)
             /\ sendMessageCalls w !! c = Some (AwaitingPrompt wr t)
             /\ history wrapper'
                = history wrapper
                  ++ [ {| role := user; parts := [ {| text := t |} ] |};
                       {| role := model; parts := [ {| text := r |} ] |} ]).
Proof.
  intros Hw Hstep. invert_step Hstep.
  all: try (exists wrapper; repeat split; auto;
            first [exact Hw | apply lookup_app_l_Some; exact Hw]).
  destruct (decide (wrapper0 = wr)) as [->|Hne].
  - eexists. split; [apply list_lookup_insert_eq; eapply lookup_lt_Some, Hw|].
    simplify_eq. simpl. repeat split. right. eexists _, _, _.
    split; [reflexivity|]. split; [eassumption|].
    rewrite <- app_assoc. reflexivity.
  - exists wrapper. rewrite list_lookup_insert_ne by exact Hne. auto.
Qed.



Lemma lookup_last_appended {A} (l : list A) (x : A) :
  (l ++ [x]) !! length l = Some x.
Proof. apply list_lookup_middle. reflexivity. Qed.

Lemma lookup_updated_last {A} (l : list A) (x y : A) :
  <[length l := y]> (l ++ [x]) !! length l = Some y.
Proof. apply list_lookup_insert_eq. rewrite length_app. simpl. lia. Qed.





Lemma run_reachable evs w w' : reachable w -> run evs w = Some w' -> reachable w'.
Proof.
  revert w. induction evs as [|ev evs IH]; intros w Hreach Hrun; simpl in Hrun.
  - congruence.
  - destruct (step ev w) as [w1|] eqn:Hstep; [|discriminate].
    eapply IH; [|exact Hrun]. eapply reachable_step; eauto.
Qed.



(** * Further properties *)

(** ** Token estimate: bounds and composition *)

Lemma ceiling4_le (n : nat) :
  (0 <= ceiling4 n <= Z.of_nat n)%Z /\ (ceiling4 n = 0%Z <-> n = 0).
Proof. unfold ceiling4. split; [|split; intros H]; Z.div_mod_to_equations; lia. Qed.

Lemma estimate_spec_app (h1 h2 : list Message) :
  estimate_spec (h1 ++ h2) = (estimate_spec h1 + estimate_spec h2)%Z.
Proof.
  unfold estimate_spec, allParts. rewrite flat_map_app, map_app. apply sumZ_app.
Qed.

Lemma estimate_spec_bounds (h : list Message) :
  (0 <= estimate_spec h <= Z.of_nat (totalTextLength h))%Z
  /\ (totalPadding h <= 3 * Z.of_nat (partCount h))%Z
  /\ (estimate_spec h = 0%Z <-> totalTextLength h = 0).
Proof.
  unfold estimate_spec, totalTextLength, totalPadding, partCount.
  induction (allParts h) as [|p ps (IH1 & IH2 & IH3)]; simpl.
  - repeat split; lia.
  - destruct (ceiling4_le (String.length (text p))) as [H1 H2].
    destruct (ceiling4_padding (String.length (text p))) as [_ H3].
    unfold sumZ in *. simpl. repeat split; try lia.
Qed.

(** X1: the token estimate of two histories put together is the sum of
    their estimates; four times the estimate lies between the total text
    length and that length plus three per text part; the estimate never
    exceeds the total text length and is zero exactly when every text is
    empty. *)
Theorem countHistoryTokens_additive_and_bounded (h1 h2 : list Message) :
  countHistoryTokens (h1 ++ h2) = (countHistoryTokens h1 + countHistoryTokens h2)%Z
  /\ (Z.of_nat (totalTextLength h1) <= 4 * countHistoryTokens h1
      <= Z.of_nat (totalTextLength h1) + 3 * Z.of_nat (partCount h1))%Z
  /\ (0 <= countHistoryTokens h1 <= Z.of_nat (totalTextLength h1))%Z
  /\ (countHistoryTokens h1 = 0%Z <-> totalTextLength h1 = 0)
  /\ countHistoryTokens [] = 0%Z.
Proof.
  rewrite !countHistoryTokens_spec.
  destruct (estimate_total_padding h1) as [H4 Hpos].
  destruct (estimate_spec_bounds h1) as (B1 & B2 & B3).
  split; [apply estimate_spec_app|]. split; [lia|]. split; [exact B1|].
  split; [exact B3 | reflexivity].
Qed.

(** ** Hydration in two steps *)

(** X2: hydrating a session with one history and then with another gives
    the native history, the cleared evaluation and the reuse flag that
    hydrating once with the two histories put together gives; the two
    sessions are equal as soon as the second history is not empty (or the
    first is, or the same address is used for the state reference). *)
Theorem hydrateNativeHistory_twice (session : LlamaChatSession)
    (h1 h2 : list Message) (fresh1 fresh2 : nat) :
  let twice := hydrateNativeHistory (hydrateNativeHistory session h1 fresh1) h2 fresh2 in
  let once := hydrateNativeHistory session (h1 ++ h2) fresh2 in
  _chatHistory twice = _chatHistory once
  /\ _lastEvaluation twice = _lastEvaluation once
  /\ _canUseContextWindowForCompletion twice = _canUseContextWindowForCompletion once
  /\ (h2 <> [] \/ h1 = [] \/ fresh1 = fresh2 -> twice = once).
Proof.
  intros twice once. subst twice once. unfold hydrateNativeHistory.
  rewrite !convertToChatHistory_map, map_app.
  destruct h1 as [|m1 h1], h2 as [|m2 h2]; simpl; rewrite ?app_nil_r.
  - repeat split.
  - repeat split.
  - repeat split. intros [H|[H|H]]; [contradiction | discriminate | subst; reflexivity].
  - rewrite <- !app_assoc. repeat split.
Qed.

Lemma hydrateNativeHistory_twice_witness :
  hydrateNativeHistory (hydrateNativeHistory fresh_session [model_without_parts] 2)
    history_a_bc_d 3
  = hydrateNativeHistory fresh_session ([model_without_parts] ++ history_a_bc_d) 3.
Proof.
  apply (proj2 (proj2 (proj2
           (hydrateNativeHistory_twice fresh_session [model_without_parts]
              history_a_bc_d 2 3)))).
  left. discriminate.
Defined.

(** ** The client built from the environment *)

Section EnvironmentProperties.

Variable Number_parseFloat : string -> float.
Variable Number_parseInt : string -> Z -> float.

Lemma parseNullableFloat_cases (value : option string) :
  match parseNullableFloat Number_parseFloat value with
  | Some x =>
      PrimFloat.is_finite x = true
      /\ exists s, value = Some s /\ s <> "" /\ x = Number_parseFloat s
  | None =>
      value = None \/ value = Some ""
      \/ exists s, value = Some s /\ PrimFloat.is_finite (Number_parseFloat s) = false
  end.
Proof.
  unfold parseNullableFloat. destruct value as [s|]; [|auto].
  case_bool_decide as Hs; [subst; auto|].
  destruct (PrimFloat.is_finite (Number_parseFloat s)) eqn:Hf; eauto 10.
Qed.

Lemma parseNullableInt_cases (value : option string) :
  match parseNullableInt Number_parseInt value with
  | Some x =>
      PrimFloat.is_finite x = true
      /\ exists s, value = Some s /\ s <> "" /\ x = Number_parseInt s 10
  | None =>
      value = None \/ value = Some ""
      \/ exists s, value = Some s /\ PrimFloat.is_finite (Number_parseInt s 10) = false
  end.
Proof.
  unfold parseNullableInt. destruct value as [s|]; [|auto].
  case_bool_decide as Hs; [subst; auto|].
  destruct (PrimFloat.is_finite (Number_parseInt s 10)) eqn:Hf; eauto 10.
Qed.

Lemma presentNumber_parsed_float (value : option string) :
  presentNumber (parseNullableFloat Number_parseFloat value)
  = VNum <$> parseNullableFloat Number_parseFloat value.
Proof.
  pose proof (parseNullableFloat_cases value) as H.
  destruct (parseNullableFloat Number_parseFloat value) as [x|]; [|reflexivity].
  destruct H as [Hf _]. simpl. rewrite Hf. reflexivity.
Qed.

Lemma presentNumber_parsed_int (value : option string) :
  presentNumber (parseNullableInt Number_parseInt value)
  = VNum <$> parseNullableInt Number_parseInt value.
Proof.
  pose proof (parseNullableInt_cases value) as H.
  destruct (parseNullableInt Number_parseInt value) as [x|]; [|reflexivity].
  destruct H as [Hf _]. simpl. rewrite Hf. reflexivity.
Qed.

Lemma presentPrefix_parsed (value : option string) :
  presentPrefix (responsePrefixFromEnvironment value)
  = VStr <$> responsePrefixFromEnvironment value.
Proof.
  unfold responsePrefixFromEnvironment, presentPrefix, truthy.
  destruct value as [s|]; [|reflexivity].
  destruct (bool_decide (trim s = "")) eqn:H; simpl; [reflexivity|].
  rewrite H. reflexivity.
Qed.

Lemma parseNullableFloat_reads (value : option string) :
  readsNumber Number_parseFloat value (parseNullableFloat Number_parseFloat value).
Proof.
  split.
  - intros [-> | ->]; reflexivity.
  - intros s -> Hs. unfold parseNullableFloat.
    rewrite bool_decide_eq_false_2 by exact Hs. reflexivity.
Qed.

Lemma parseNullableInt_reads (value : option string) :
  readsNumber (fun s => Number_parseInt s 10) value
    (parseNullableInt Number_parseInt value).
Proof.
  split.
  - intros [-> | ->]; reflexivity.
  - intros s -> Hs. unfold parseNullableInt.
    rewrite bool_decide_eq_false_2 by exact Hs. reflexivity.
Qed.

(** X3: whatever the parsers return, a client built by [fromEnvironment]
    holds no number that is not finite.  Each numeric field is read from
    its own variable with its own parser ([Number.parseFloat] for
    temperature, topP and minP, [Number.parseInt] with radix 10 for topK,
    maxTokens and seed): a variable that is not set or is empty leaves the
    field unset, a value that parses to a finite number sets it to that
    number, and any other value (one that parses to [NaN] or an infinity)
    leaves it unset.  The response prefix is the trimmed value of its
    variable, unset when that is empty.  Name, path, layer count and
    context size are those of the validated configuration. *)
Theorem fromEnvironment_fields_finite (config : LlamaConfig) (env : gmap string string) :
  let this := fromEnvironment Number_parseFloat Number_parseInt config env in
  let cfg := generationConfig this in
  (forall x, x ∈ [temperature cfg; topP cfg; topK cfg; minP cfg; maxTokens cfg; seed cfg] ->
     x = None \/ isFiniteNumber x = true)
  /\ readsNumber Number_parseFloat (env !! "LLAMA_TEMPERATURE") (temperature cfg)
  /\ readsNumber Number_parseFloat (env !! "LLAMA_TOP_P") (topP cfg)
  /\ readsNumber (fun s => Number_parseInt s 10) (env !! "LLAMA_TOP_K") (topK cfg)
  /\ readsNumber Number_parseFloat (env !! "LLAMA_MIN_P") (minP cfg)
  /\ readsNumber (fun s => Number_parseInt s 10) (env !! "LLAMA_MAX_TOKENS")
       (maxTokens cfg)
  /\ readsNumber (fun s => Number_parseInt s 10) (env !! "LLAMA_SEED") (seed cfg)
  /\ readsPrefix (env !! "LLAMA_RESPONSE_PREFIX") (responsePrefix cfg)
  /\ (forall s, responsePrefix cfg = Some s ->
      s <> "" /\ exists v, env !! "LLAMA_RESPONSE_PREFIX" = Some v /\ s = trim v)
  /\ modelName this = config_modelName config
  /\ modelPath this = llamaModelPath config
  /\ gpuLayers this = llamaGpuLayers config
  /\ contextSize this = llamaContextSize config.
Proof.
  intros this cfg. subst cfg this. simpl.
  split; [|split; [|split; [|split; [|split; [|split; [|split; [|split; [|split]]]]]]]].
  - intros x Hx.
    assert (forall v, parseNullableFloat Number_parseFloat v = None
                      \/ isFiniteNumber (parseNullableFloat Number_parseFloat v) = true) as HF.
    { intros v. pose proof (parseNullableFloat_cases v) as H.
      destruct (parseNullableFloat Number_parseFloat v); [right; apply H | left; reflexivity]. }
    assert (forall v, parseNullableInt Number_parseInt v = None
                      \/ isFiniteNumber (parseNullableInt Number_parseInt v) = true) as HI.
    { intros v. pose proof (parseNullableInt_cases v) as H.
      destruct (parseNullableInt Number_parseInt v); [right; apply H | left; reflexivity]. }
    repeat (apply elem_of_cons in Hx as [->|Hx]; [auto|]).
    inversion Hx.
  - apply parseNullableFloat_reads.
  - apply parseNullableFloat_reads.
  - apply parseNullableInt_reads.
  - apply parseNullableFloat_reads.
  - apply parseNullableInt_reads.
  - apply parseNullableInt_reads.
  - split.
    + intros ->. reflexivity.
    + intros v ->. unfold responsePrefixFromEnvironment, truthy.
      destruct (bool_decide (trim v = "")); reflexivity.
  - intros s. unfold responsePrefixFromEnvironment, truthy.
    destruct (env !! "LLAMA_RESPONSE_PREFIX") as [v|]; [|discriminate].
    case_bool_decide as Ht; simpl; [discriminate|].
    intros [= <-]. eauto.
  - repeat split.
Qed.

Lemma expectedOption_fromEnvironment (config : LlamaConfig)
    (env : gmap string string) (k : string) :
  let cfg := generationConfig (fromEnvironment Number_parseFloat Number_parseInt config env) in
  expectedOption cfg k
  = if bool_decide (k = "temperature") then VNum <$> temperature cfg
    else if bool_decide (k = "topP") then VNum <$> topP cfg
    else if bool_decide (k = "topK") then VNum <$> topK cfg
    else if bool_decide (k = "minP") then VNum <$> minP cfg
    else if bool_decide (k = "maxTokens") then VNum <$> maxTokens cfg
    else if bool_decide (k = "seed") then VNum <$> seed cfg
    else if bool_decide (k = "responsePrefix") then VStr <$> responsePrefix cfg
    else None.
Proof.
  intros cfg. unfold expectedOption. subst cfg. simpl.
  rewrite !presentNumber_parsed_float, !presentNumber_parsed_int,
    presentPrefix_parsed. reflexivity.
Qed.

Lemma all_unset_is_default (cfg : LlamaGenerationConfig) :
  temperature cfg = None -> topP cfg = None -> topK cfg = None ->
  minP cfg = None -> maxTokens cfg = None -> seed cfg = None ->
  responsePrefix cfg = None -> cfg = DEFAULT_GENERATION_CONFIG.
Proof. destruct cfg; simpl; intros; subst; reflexivity. Qed.

(** X4: [getPromptOptions] of a client built by [fromEnvironment] drops
    nothing: the record holds a key exactly when the config field is set,
    with the field's value, and the result is [undefined] exactly when
    every field is unset. *)
Theorem getPromptOptions_fromEnvironment (config : LlamaConfig)
    (env : gmap string string) :
  let this := fromEnvironment Number_parseFloat Number_parseInt config env in
  let cfg := generationConfig this in
  (getPromptOptions this = None <-> cfg = DEFAULT_GENERATION_CONFIG)
  /\ forall o, getPromptOptions this = Some o ->
       o !! "temperature" = VNum <$> temperature cfg
       /\ o !! "topP" = VNum <$> topP cfg
       /\ o !! "topK" = VNum <$> topK cfg
       /\ o !! "minP" = VNum <$> minP cfg
       /\ o !! "maxTokens" = VNum <$> maxTokens cfg
       /\ o !! "seed" = VNum <$> seed cfg
       /\ o !! "responsePrefix" = VStr <$> responsePrefix cfg.
Proof.
  intros this cfg.
  pose proof (expectedOption_fromEnvironment config env) as Hexp.
  cbv zeta in Hexp. fold this in Hexp. fold cfg in Hexp.
  destruct (getPromptOptions_cases this) as [(o & Ho & Hne & Hlook) | [Hnone Hall]].
  - fold cfg in Hlook. rewrite Ho. split.
    + split; [discriminate|]. intros Hcfg. exfalso. apply Hne.
      apply map_eq. intros k. rewrite Hlook, Hexp, Hcfg, lookup_empty.
      repeat case_bool_decide; reflexivity.
    + intros o' [= <-]. rewrite !Hlook, !Hexp. repeat split.
  - fold cfg in Hall. rewrite Hnone. split; [|intros o [=]].
    split; [intros _ | reflexivity].
    assert (forall k, (if bool_decide (k = "temperature") then VNum <$> temperature cfg
                       else if bool_decide (k = "topP") then VNum <$> topP cfg
                       else if bool_decide (k = "topK") then VNum <$> topK cfg
                       else if bool_decide (k = "minP") then VNum <$> minP cfg
                       else if bool_decide (k = "maxTokens") then VNum <$> maxTokens cfg
                       else if bool_decide (k = "seed") then VNum <$> seed cfg
                       else if bool_decide (k = "responsePrefix")
                            then VStr <$> responsePrefix cfg
                       else None) = None) as Hk
      by (intros k; rewrite <- Hexp; apply Hall).
    apply all_unset_is_default; eapply fmap_None.
    + exact (Hk "temperature").
    + exact (Hk "topP").
    + exact (Hk "topK").
    + exact (Hk "minP").
    + exact (Hk "maxTokens").
    + exact (Hk "seed").
    + exact (Hk "responsePrefix").
Qed.

End EnvironmentProperties.

Lemma fromEnvironment_fields_finite_witness :
  temperature (generationConfig
                 (fromEnvironment example_parseFloat example_parseInt
                    example_config example_env))
  = Some number_0_7
  /\ topK (generationConfig
             (fromEnvironment example_parseFloat example_parseInt
                example_config example_env))
     = None
  /\ seed (generationConfig
             (fromEnvironment example_parseFloat example_parseInt
                example_config example_env))
     = None
  /\ responsePrefix (generationConfig
                       (fromEnvironment example_parseFloat example_parseInt
                          example_config example_env))
     = Some ">".
Proof.
  pose proof (fromEnvironment_fields_finite example_parseFloat example_parseInt
                example_config example_env)
    as (_ & [_ Ht] & _ & [_ Hk] & _ & _ & [Hs _] & [_ Hp] & _).
  split; [|split; [|split]].
  - rewrite (Ht "0.7" ltac:(vm_compute; reflexivity) ltac:(discriminate)).
    reflexivity.
  - rewrite (Hk "forty" ltac:(vm_compute; reflexivity) ltac:(discriminate)).
    reflexivity.
  - apply Hs. right. vm_compute. reflexivity.
  - rewrite (Hp "  > " ltac:(vm_compute; reflexivity)). reflexivity.
Defined.

Lemma getPromptOptions_fromEnvironment_witness :
  getPromptOptions
    (fromEnvironment example_parseFloat example_parseInt example_config example_env)
  = Some {[ "temperature" := VNum number_0_7; "responsePrefix" := VStr ">" ]}
  /\ ({[ "temperature" := VNum number_0_7; "responsePrefix" := VStr ">" ]}
        : gmap string JsValue) !! "responsePrefix"
     = VStr <$> responsePrefix
                  (generationConfig
                     (fromEnvironment example_parseFloat example_parseInt
                        example_config example_env)).
Proof.
  assert (getPromptOptions
            (fromEnvironment example_parseFloat example_parseInt example_config
               example_env)
          = Some {[ "temperature" := VNum number_0_7; "responsePrefix" := VStr ">" ]})
    as Ho by (vm_compute; reflexivity).
  split; [exact Ho|].
  apply (proj2 (getPromptOptions_fromEnvironment example_parseFloat example_parseInt
                  example_config example_env) _ Ho).
Defined.

(** ** Histories grow by whole turns *)

Lemma step_history_turns wr wrapper ev w w' :
  wrappers w !! wr = Some wrapper -> step ev w = Some w' ->
  exists wrapper' exchanges,
    wrappers w' !! wr = Some wrapper'
    /\ history wrapper' = history wrapper ++ turnsOf exchanges
    /\ length exchanges <= 1.
Proof.
  intros Hw Hstep.
  destruct (step_wrapper _ _ _ _ _ Hw Hstep) as (wrapper' & H1 & _ & _ & [H4|H4]).
  - exists wrapper', []. split; [exact H1|]. split; [rewrite app_nil_r; exact H4|].
    simpl. lia.
  - destruct H4 as (c & t & r & -> & Hc & Hh).
    exists wrapper', [(t, r)]. split; [exact H1|]. split; [exact Hh|]. simpl. lia.
Qed.

Lemma turnsOf_app (l1 l2 : list (string * string)) :
  turnsOf (l1 ++ l2) = turnsOf l1 ++ turnsOf l2.
Proof. unfold turnsOf. apply flat_map_app. Qed.

(** X5: over any run, the history of a wrapper only grows, and by whole
    turns: [getHistory] returns what it returned before followed by one
    user message and one model message for each exchange completed since,
    at most one per event.  For a session created in the run, that is the
    initial history followed by its turns. *)
Theorem history_grows_by_turns (evs : list Event) (w w' : World) :
  run evs w = Some w' ->
  (forall wr h,
     getHistory wr w = Some h ->
     exists exchanges,
       getHistory wr w' = Some (h ++ turnsOf exchanges)
       /\ length exchanges <= length evs)
  /\ (forall this systemInstruction initialHistory evs0,
        evs = CreateChatSession this systemInstruction initialHistory :: evs0 ->
        exists exchanges,
          getHistory (length (wrappers w)) w'
          = Some (default [] initialHistory ++ turnsOf exchanges)
          /\ length exchanges <= length evs0).
Proof.
  intros Hrun.
  assert (forall evs w w' wr h,
            run evs w = Some w' -> getHistory wr w = Some h ->
            exists exchanges,
              getHistory wr w' = Some (h ++ turnsOf exchanges)
              /\ length exchanges <= length evs) as Hgen.
  { clear. induction evs as [|ev evs IH]; intros w w' wr h Hrun Hh.
    - simpl in Hrun. simplify_eq. exists []. rewrite app_nil_r. auto.
    - simpl in Hrun. destruct (step ev w) as [w1|] eqn:Hstep; [|discriminate].
      unfold getHistory in Hh.
      destruct (wrappers w !! wr) as [wrapper|] eqn:Hw; [|discriminate].
      simpl in Hh. simplify_eq.
      destruct (step_history_turns _ _ _ _ _ Hw Hstep) as (wrapper1 & ex1 & Hw1 & Hh1 & Hl1).
      destruct (IH w1 w' wr (history wrapper1) Hrun) as (ex2 & Hh2 & Hl2).
      { unfold getHistory. rewrite Hw1. reflexivity. }
      exists (ex1 ++ ex2). rewrite Hh2, Hh1, turnsOf_app, app_assoc.
      split; [reflexivity|]. rewrite length_app. simpl.
      lia. }
  split.
  - intros wr h Hh. eapply Hgen; eauto.
  - intros this systemInstruction initialHistory evs0 ->.
    change (run evs0 (fst (createChatSession this systemInstruction initialHistory w))
            = Some w') in Hrun.
    eapply Hgen; [exact Hrun|].
    unfold getHistory. rewrite createChatSession_world. simpl.
    rewrite lookup_last_appended. reflexivity.
Qed.

Lemma history_grows_by_turns_witness :
  exists exchanges,
    getHistory 0 world_after_turn = Some ([] ++ turnsOf exchanges)
    /\ length exchanges <= 3.
Proof.
  apply (proj1 (history_grows_by_turns turn_run ready_world world_after_turn
                  ltac:(vm_compute; reflexivity))
           0 [] ltac:(vm_compute; reflexivity)).
Defined.

(** ** A loaded model stays cached *)

Lemma step_entry_past_getLlama key p st ev w w' :
  awaitingOwnsEntry w ->
  modelCache w !! key = Some p ->
  modelPromises w !! p = Some st -> pastGetLlama st ->
  step ev w = Some w' ->
  modelCache w' !! key = Some p
  /\ exists st', modelPromises w' !! p = Some st' /\ pastGetLlama st'
                 /\ (modelSettled st -> st' = st).
Proof.
  intros I1 Hk Hp Hpast Hstep.
  assert (p < length (modelPromises w)) as Hlt by (eapply lookup_lt_Some; eauto).
  invert_step Hstep; try (split; [exact Hk | solve [eauto]]).
  - split.
    + rewrite lookup_insert_ne; [exact Hk|].
      intros Heq. rewrite Heq, Hk in H.
      rewrite bool_decide_eq_true_2 in H by eauto. discriminate.
    + exists st. split; [apply lookup_app_l_Some; exact Hp | auto].
  - assert (p0 <> p) as Hne by (intros ->; rewrite Hp in *; simplify_eq; contradiction).
    split; [exact Hk|]. exists st.
    rewrite list_lookup_insert_ne by exact Hne. auto.
  - assert (p0 <> p) as Hne by (intros ->; rewrite Hp in *; simplify_eq; contradiction).
    assert (cacheKey <> key) as Hkey.
    { intros ->. match goal with
      | H0 : modelPromises _ !! p0 = Some (AwaitingGetLlama key _) |- _ =>
          apply I1 in H0; congruence
      end. }
    split; [rewrite lookup_delete_ne by exact Hkey; exact Hk|]. exists st.
    rewrite list_lookup_insert_ne by exact Hne. auto.
  - assert (p0 <> p) as Hne by (intros ->; rewrite Hp in *; simplify_eq; contradiction).
    assert (cacheKey <> key) as Hkey.
    { intros ->. match goal with
      | H0 : modelPromises _ !! p0 = Some (AwaitingGetLlama key _) |- _ =>
          apply I1 in H0; congruence
      end. }
    split; [rewrite lookup_delete_ne by exact Hkey; exact Hk|]. exists st.
    rewrite list_lookup_insert_ne by exact Hne. auto.
  - split; [exact Hk|]. destruct (decide (p0 = p)) as [->|Hne].
    + rewrite list_lookup_insert_eq by exact Hlt. eexists. split; [reflexivity|].
      split; [exact I|]. intros Hs. rewrite Hp in *. simplify_eq. contradiction.
    + exists st. rewrite list_lookup_insert_ne by exact Hne. auto.
  - split; [exact Hk|]. destruct (decide (p0 = p)) as [->|Hne].
    + rewrite list_lookup_insert_eq by exact Hlt. eexists. split; [reflexivity|].
      split; [exact I|]. intros Hs. rewrite Hp in *. simplify_eq. contradiction.
    + exists st. rewrite list_lookup_insert_ne by exact Hne. auto.
Qed.

Lemma awaitingGetLlamaAt_past p st w :
  modelPromises w !! p = Some st -> pastGetLlama st -> awaitingGetLlamaAt p w = 0.
Proof.
  intros Hp Hpast. unfold awaitingGetLlamaAt. rewrite Hp.
  destruct st; [contradiction | reflexivity..].
Qed.

Lemma run_entry_past_getLlama key p st evs w w' :
  reachable w ->
  modelCache w !! key = Some p ->
  modelPromises w !! p = Some st -> pastGetLlama st ->
  run evs w = Some w' ->
  reachable w'
  /\ modelCache w' !! key = Some p
  /\ (exists st', modelPromises w' !! p = Some st' /\ pastGetLlama st'
                  /\ (modelSettled st -> st' = st))
  /\ getLlamaCount key w' = getLlamaCount key w
  /\ llamaLoadModelCount key w' = llamaLoadModelCount key w.
Proof.
  revert w st. induction evs as [|ev evs IH]; intros w st Hreach Hk Hp Hpast Hrun.
  - simpl in Hrun. simplify_eq. eauto 10.
  - simpl in Hrun. destruct (step ev w) as [w1|] eqn:Hstep; [|discriminate].
    pose proof (reachable_wellFormed _ Hreach) as Hwf.
    destruct (step_entry_past_getLlama _ _ _ _ _ _ (proj1 Hwf) Hk Hp Hpast Hstep)
      as (Hk1 & st1 & Hp1 & Hpast1 & Hsame).
    destruct (IH w1 st1 (reachable_step _ _ _ Hreach Hstep) Hk1 Hp1 Hpast1 Hrun)
      as (R & C & (st' & P1 & P2 & P3) & G & L).
    split; [exact R|]. split; [exact C|]. split; [|split].
    + exists st'. split; [exact P1|]. split; [exact P2|].
      intros Hs. specialize (Hsame Hs). subst st1. auto.
    + rewrite G. eapply step_getLlamaCount; eauto.
    + rewrite L.
      destruct (step_llamaLoadModelCount _ _ _ _ _ Hwf Hk Hstep) as [E|(_ & E & _)];
        [exact E|].
      rewrite (awaitingGetLlamaAt_past _ _ _ Hp Hpast) in E. discriminate.
Qed.

(** X6: a model that was loaded stays in the cache.  Once the cached
    promise of a fingerprint is fulfilled, no run removes or replaces the
    entry or changes the promise; no further [getLlama] or
    [llama.loadModel] call is made for the fingerprint; and a session
    created later for it gets that very model when its wait is over. *)
Theorem loaded_model_stays_cached (this : LlamaClient) (w : World) (p : nat)
    (m : LlamaModel) :
  reachable w ->
  modelCache w !! cacheKeyOf this = Some p ->
  modelPromises w !! p = Some (ModelFulfilled m) ->
  forall evs w',
    run evs w = Some w' ->
    modelCache w' !! cacheKeyOf this = Some p
    /\ modelPromises w' !! p = Some (ModelFulfilled m)
    /\ getLlamaCount (cacheKeyOf this) w' = getLlamaCount (cacheKeyOf this) w
    /\ llamaLoadModelCount (cacheKeyOf this) w'
       = llamaLoadModelCount (cacheKeyOf this) w
    /\ forall systemInstruction h,
         exists w'',
           run [CreateChatSession this systemInstruction h;
                LoadModelAwaited (length (sessionPromises w'))] w' = Some w''
           /\ sessionPromises w'' !! length (sessionPromises w')
              = Some (AwaitingContext this m systemInstruction (Some (default [] h)))
           /\ getLlamaCalls w'' = getLlamaCalls w'
           /\ llamaLoadModelCalls w'' = llamaLoadModelCalls w'.
Proof.
  intros Hreach Hk Hp evs w' Hrun.
  destruct (run_entry_past_getLlama _ _ _ _ _ _ Hreach Hk Hp I Hrun)
    as (_ & C & (st' & P1 & _ & P3) & G & L).
  rewrite (P3 I) in P1.
  split; [exact C|]. split; [exact P1|]. split; [exact G|]. split; [exact L|].
  intros systemInstruction h.
  change (run [CreateChatSession this systemInstruction h;
               LoadModelAwaited (length (sessionPromises w'))] w')
    with (match resumeLoadModel (length (sessionPromises w'))
                  (fst (createChatSession this systemInstruction h w')) with
          | Some w1 => Some w1
          | None => None
          end).
  rewrite createChatSession_world, (loadModel_hit _ _ _ C). simpl.
  unfold resumeLoadModel. simpl. rewrite lookup_last_appended, P1. simpl.
  eexists. split; [reflexivity|]. simpl.
  split; [apply lookup_updated_last | split; reflexivity].
Qed.

Lemma loaded_model_stays_cached_witness :
  modelCache world_after_turn !! cacheKeyOf example_client = Some 0
  /\ modelPromises world_after_turn !! 0 = Some (ModelFulfilled (ModelHandle 1)).
Proof.
  assert (reachable ready_world) as Hreach.
  { apply (run_reachable ready_run emptyWorld); [apply reachable_empty|].
    vm_compute. reflexivity. }
  destruct (loaded_model_stays_cached example_client ready_world 0 (ModelHandle 1)
              Hreach ltac:(vm_compute; reflexivity) ltac:(vm_compute; reflexivity)
              turn_run world_after_turn ltac:(vm_compute; reflexivity))
    as (H1 & H2 & _).
  split; [exact H1 | exact H2].
Defined.

(** ** A failure of getLlama lets the next caller retry *)

(** X7: when [await getLlama()] fails for a cached pending load (or
    [llama.loadModel] throws at once), the [catch] block removes exactly
    that fingerprint's entry and rejects the promise with the failure;
    every other entry is kept.  The next session created for the
    fingerprint starts a new load: [getLlama] is called once more and a
    new pending promise is cached. *)
Theorem failed_getLlama_allows_retry (w : World) (p : nat) (this : LlamaClient)
    (key : string) (o : Outcome LoadCall) (e : JsError) :
  reachable w ->
  modelPromises w !! p = Some (AwaitingGetLlama key this) ->
  failsBeforeLoad o e ->
  modelCache w !! key = Some p
  /\ exists w1,
       step (GetLlamaSettled p o) w = Some w1
       /\ modelCache w1 !! key = None
       /\ modelPromises w1 !! p = Some (ModelRejected e)
       /\ (forall key', key' <> key -> modelCache w1 !! key' = modelCache w !! key')
       /\ forall this' systemInstruction h,
            cacheKeyOf this' = key ->
            let w2 := fst (createChatSession this' systemInstruction h w1) in
            let p' := length (modelPromises w1) in
            p' <> p
            /\ modelCache w2 !! key = Some p'
            /\ modelPromises w2 !! p' = Some (AwaitingGetLlama key this')
            /\ modelPromises w2 !! p = Some (ModelRejected e)
            /\ getLlamaCount key w2 = getLlamaCount key w + 1.
Proof.
  intros Hreach Hp Ho.
  pose proof (reachable_wellFormed _ Hreach) as (I1 & _ & _).
  assert (p < length (modelPromises w)) as Hlt by (eapply lookup_lt_Some; eauto).
  split; [eapply I1; eauto|].
  destruct (getLlama_failure_evicts w p key this e o Ho Hp) as (w1 & Hs & Hc & Hr).
  exists w1. split; [exact Hs|]. split; [exact Hc|]. split; [exact Hr|].
  assert (modelCache w1 = delete key (modelCache w)
          /\ length (modelPromises w1) = length (modelPromises w)
          /\ getLlamaCalls w1 = getLlamaCalls w) as (Hc1 & Hl1 & Hg1).
  { unfold resumeGetLlama in Hs. rewrite Hp in Hs.
    destruct Ho as [-> | ->]; simplify_eq/=; rewrite length_insert; auto. }
  split.
  - intros key' Hne. rewrite Hc1. apply lookup_delete_ne. congruence.
  - intros this' systemInstruction h Hkey w2 p'. subst w2 p'.
    rewrite createChatSession_world. rewrite <- Hkey in Hc.
    rewrite (loadModel_miss _ _ Hc). simpl. rewrite Hkey.
    split; [lia|]. split; [apply lookup_insert_eq|].
    split; [apply lookup_last_appended|].
    split; [apply lookup_app_l_Some; exact Hr|].
    unfold getLlamaCount. simpl. rewrite Hg1, filter_app, length_app.
    rewrite filter_cons_True by reflexivity. simpl. lia.
Qed.

Lemma failed_getLlama_allows_retry_witness :
  exists w1,
    step (GetLlamaSettled 0 (Rejects (Error "no backend"))) created_world = Some w1
    /\ modelCache w1 !! cacheKeyOf example_client = None
    /\ modelPromises w1 !! 0 = Some (ModelRejected (Error "no backend")).
Proof.
  destruct (proj2 (failed_getLlama_allows_retry created_world 0 example_client
                     (cacheKeyOf example_client)
                     (Rejects (Error "no backend")) (Error "no backend")
                     (reachable_step
                        (CreateChatSession example_client "be brief" None)
                        emptyWorld _ reachable_empty eq_refl)
                     ltac:(vm_compute; reflexivity) (or_introl eq_refl)))
    as (w1 & H1 & H2 & H3 & _).
  exists w1. split; [exact H1 | split; [exact H2 | exact H3]].
Defined.

(** ** The native session is seeded with the wrapper's history *)

Lemma step_pendingSessionHoldsHistory ev w w' :
  promptingHasSession w -> pendingSessionHoldsHistory w ->
  step ev w = Some w' -> pendingSessionHoldsHistory w'.
Proof.
  intros I2 Hinv Hstep wr wrapper. invert_step Hstep; intros Hw.
  all: try (apply lookup_app_Some in Hw as [Hw | [Hlen Hw]];
            [|apply list_lookup_singleton_Some in Hw as [_ <-]; simpl;
              eexists; split; [apply lookup_last_appended|];
              simpl; intros ? [= <-]; reflexivity]).
  all: try (destruct (Hinv _ _ Hw) as (st & Hst & Hh);
            first [ exists st; split; [first [exact Hst | apply lookup_app_l_Some; exact Hst]
                                      | exact Hh]
                  | match goal with
                    | |- context [<[?sp := ?new]> _] =>
                        destruct (decide (sp = sessionPromise wrapper)) as [->|Hne];
                        [ exists new; split;
                          [apply list_lookup_insert_eq; eapply lookup_lt_Some; eauto|];
                          rewrite Hst in *; simplify_eq; simpl in *;
                          first [exact Hh | intros ? [=]]
                        | exists st; split;
                          [rewrite list_lookup_insert_ne by exact Hne; exact Hst | exact Hh] ]
                    end ]).
  (* the two pushes of a completed prompt *)
  apply list_lookup_insert_Some in Hw as [(-> & <- & _) | [Hne Hw]].
  - simpl.
    match goal with
    | Hc : sendMessageCalls w !! _ = Some (AwaitingPrompt _ _) |- _ =>
        destruct (I2 _ _ _ Hc) as (wrapper0 & session & Hw0 & Hs)
    end.
    exists (SessionFulfilled session). split; [congruence|]. intros ? [=].
  - destruct (Hinv _ _ Hw) as (st & Hst & Hh). eauto.
Qed.

Lemma reachable_pendingSessionHoldsHistory w :
  reachable w -> pendingSessionHoldsHistory w.
Proof.
  induction 1 as [|ev w w' Hreach IH Hstep].
  - intros wr wrapper Hw. simpl in Hw. rewrite lookup_nil in Hw. discriminate.
  - pose proof (reachable_wellFormed _ Hreach) as (_ & I2 & _).
    eapply step_pendingSessionHoldsHistory; eauto.
Qed.

Lemma hydrated_chatHistory (session : LlamaChatSession) (h : list Message)
    (fresh : nat) :
  h <> [] ->
  _chatHistory (hydrateNativeHistory session h fresh)
  = Some (default [] (_chatHistory session) ++ convertToChatHistory h).
Proof.
  intros Hne. unfold hydrateNativeHistory.
  rewrite convertToChatHistory_length.
  destruct h; [contradiction | reflexivity].
Qed.

(** X8: when the native session of a wrapper is made, it is seeded with
    the wrapper's own history: while the session promise is pending the
    wrapper's history is still the initial one, and the promise is
    fulfilled with the new session as it is when that history is empty,
    and otherwise with its native history extended by the translation of
    the wrapper's history, one item per message.  The wrapper's history
    is not touched. *)
Theorem native_session_seeded_with_history (w : World) (wr : nat)
    (wrapper : LlamaChatSessionWrapper) (this : LlamaClient) (m : LlamaModel)
    (systemInstruction : string) (h : option (list Message)) :
  reachable w ->
  wrappers w !! wr = Some wrapper ->
  sessionPromises w !! sessionPromise wrapper
  = Some (AwaitingContext this m systemInstruction h) ->
  h = Some (history wrapper)
  /\ forall session fresh,
       exists w' session',
         step (ContextSettled (sessionPromise wrapper) (Resolves session) fresh) w
         = Some w'
         /\ sessionPromises w' !! sessionPromise wrapper = Some (SessionFulfilled session')
         /\ (history wrapper = [] -> session' = session)
         /\ (history wrapper <> [] ->
             _chatHistory session'
             = Some (default [] (_chatHistory session)
                       ++ convertToChatHistory (history wrapper))
             /\ length (default [] (_chatHistory session'))
                = length (default [] (_chatHistory session)) + length (history wrapper))
         /\ getHistory wr w' = Some (history wrapper).
Proof.
  intros Hreach Hw Hsp.
  destruct (reachable_pendingSessionHoldsHistory w Hreach wr wrapper Hw)
    as (st & Hst & Hh).
  rewrite Hsp in Hst. simplify_eq. specialize (Hh h eq_refl). subst h.
  split; [reflexivity|]. intros session fresh.
  assert (sessionPromise wrapper < length (sessionPromises w)) as Hlt
    by (eapply lookup_lt_Some; eauto).
  simpl. unfold settleContext. rewrite Hsp.
  eexists _, _. split; [reflexivity|]. simpl.
  split; [apply list_lookup_insert_eq; exact Hlt|].
  destruct (history wrapper) as [|msg rest] eqn:Hhist.
  - split; [reflexivity|]. split; [contradiction|].
    unfold getHistory. simpl. rewrite Hw. simpl. congruence.
  - split; [discriminate|]. split.
    + intros _. simpl.
      rewrite (hydrated_chatHistory session (msg :: rest) fresh) by discriminate.
      split; [reflexivity|].
      simpl. rewrite length_app, convertToChatHistory_length. reflexivity.
    + unfold getHistory. simpl. rewrite Hw. simpl. congruence.
Qed.

Lemma native_session_seeded_with_history_witness :
  exists w' session',
    step (ContextSettled 0 (Resolves fresh_session) 2) context_pending_world = Some w'
    /\ sessionPromises w' !! 0 = Some (SessionFulfilled session')
    /\ _chatHistory session'
       = Some [ChatSystemMessage "be brief"; ChatUserMessage "a";
               ChatModelResponse ["b"; "c"]; ChatUserMessage "d"].
Proof.
  assert (reachable context_pending_world) as Hreach.
  { apply (run_reachable seeded_run emptyWorld); [apply reachable_empty|].
    vm_compute. reflexivity. }
  destruct (proj2 (native_session_seeded_with_history context_pending_world 0
                     seeded_wrapper example_client (ModelHandle 1) "be brief"
                     (Some history_a_bc_d) Hreach
                     ltac:(vm_compute; reflexivity) ltac:(vm_compute; reflexivity))
              fresh_session 2)
    as (w' & session' & H1 & H2 & _ & H3 & _).
  exists w', session'. split; [exact H1|]. split; [exact H2|].
  apply (proj1 (H3 ltac:(discriminate))).
Defined.

(** ** No prompt without a ready session *)

Lemma step_promptedOnlyWhenReady ev w w' :
  promptedOnlyWhenReady w -> step ev w = Some w' -> promptedOnlyWhenReady w'.
Proof.
  intros Hinv Hstep sp t o. invert_step Hstep; intros Hin.
  all: try (apply elem_of_app in Hin as [Hin|Hin];
            [|apply list_elem_of_singleton in Hin; simplify_eq; eauto]).
  all: destruct (Hinv _ _ _ Hin) as (session0 & Hs).
  all: try (exists session0; first [exact Hs | apply lookup_app_l_Some; exact Hs]).
  all: exists session0; rewrite list_lookup_insert_ne; [exact Hs|];
    intros ->; rewrite Hs in *; simplify_eq.
Qed.

Lemma step_promptedByWrapper ev w w' :
  promptedByWrapper w -> step ev w = Some w' -> promptedByWrapper w'.
Proof.
  intros Hinv Hstep sp t o Hin.
  assert ((sp, t, o) ∈ promptCalls w
          \/ exists wr wrapper, wrappers w !! wr = Some wrapper
                                /\ sessionPromise wrapper = sp
                                /\ o = getPromptOptions (client wrapper)) as [Hold|Hnew].
  { clear Hinv. pose proof Hstep as Hstep'. invert_step Hstep'; auto.
    apply elem_of_app in Hin as [Hin|Hin]; [auto|].
    apply list_elem_of_singleton in Hin. simplify_eq. right. eauto. }
  - destruct (Hinv _ _ _ Hold) as (wr & wrapper & Hw & Hsp & Ho).
    destruct (step_wrapper _ _ _ _ _ Hw Hstep) as (wrapper' & H1 & H2 & H3 & _).
    exists wr, wrapper'. split; [exact H1|]. split; congruence.
  - destruct Hnew as (wr & wrapper & Hw & Hsp & Ho).
    destruct (step_wrapper _ _ _ _ _ Hw Hstep) as (wrapper' & H1 & H2 & H3 & _).
    exists wr, wrapper'. split; [exact H1|]. split; congruence.
Qed.

Lemma step_sessionsNeedModel ev w w' :
  sessionsNeedModel w -> step ev w = Some w' -> sessionsNeedModel w'.
Proof.
  intros Hinv Hstep sp st Hsp Hst.
  assert (exists p m, modelPromises w !! p = Some (ModelFulfilled m)) as (p & m & Hp).
  { pose proof Hstep as Hstep'.
    invert_step Hstep'; try exact (Hinv _ _ Hsp Hst).
    all: try (apply lookup_app_Some in Hsp as [Hsp | [_ Hsp]];
              [exact (Hinv _ _ Hsp Hst)
              |apply list_lookup_singleton_Some in Hsp as [_ <-]; contradiction]).
    all: apply list_lookup_insert_Some in Hsp as [(-> & <- & _) | [_ Hsp]];
      [|exact (Hinv _ _ Hsp Hst)].
    all: try contradiction.
    all: try (eexists _, _; eassumption).
    all: match goal with
         | H0 : sessionPromises _ !! ?q = Some (AwaitingContext _ _ _ _) |- _ =>
             exact (Hinv _ _ H0 I)
         end. }
  exists p, m. eapply step_model_settled; eauto. exact I.
Qed.

Lemma reachable_prompt_invariants w :
  reachable w -> promptedOnlyWhenReady w /\ promptedByWrapper w /\ sessionsNeedModel w.
Proof.
  induction 1 as [|ev w w' _ (I1 & I2 & I3) Hstep].
  - split; [|split].
    + intros sp t o Hin. inversion Hin.
    + intros sp t o Hin. inversion Hin.
    + intros sp st Hsp. simpl in Hsp. rewrite lookup_nil in Hsp. discriminate.
  - split; [|split].
    + eapply step_promptedOnlyWhenReady; eauto.
    + eapply step_promptedByWrapper; eauto.
    + eapply step_sessionsNeedModel; eauto.
Qed.

(** X9: [session.prompt] is never called on a session that is pending or
    has failed.  In every reachable world each prompt call on record was
    made by a wrapper on its own session promise, that promise is
    fulfilled, a model has been loaded, and the options passed are
    [getPromptOptions] of the wrapper's client. *)
Theorem prompt_only_on_ready_session (w : World) (sp : nat) (t : string)
    (o : option (gmap string JsValue)) :
  reachable w ->
  (sp, t, o) ∈ promptCalls w ->
  (exists session, sessionPromises w !! sp = Some (SessionFulfilled session))
  /\ (exists p m, modelPromises w !! p = Some (ModelFulfilled m))
  /\ (exists wr wrapper,
        wrappers w !! wr = Some wrapper
        /\ sessionPromise wrapper = sp
        /\ o = getPromptOptions (client wrapper)).
Proof.
  intros Hreach Hin.
  destruct (reachable_prompt_invariants w Hreach) as (I1 & I2 & I3).
  destruct (I1 _ _ _ Hin) as (session & Hs).
  split; [eauto|]. split; [|eauto].
  eapply I3; [exact Hs | exact I].
Qed.

Lemma prompt_only_on_ready_session_witness :
  exists session, sessionPromises world_after_turn !! 0 = Some (SessionFulfilled session).
Proof.
  assert (reachable world_after_turn) as Hreach.
  { apply (run_reachable (ready_run ++ turn_run) emptyWorld); [apply reachable_empty|].
    vm_compute. reflexivity. }
  apply (proj1 (prompt_only_on_ready_session world_after_turn 0 "hi" None Hreach
                  ltac:(vm_compute; apply list_elem_of_here))).
Defined.

(** ** Failures of the materialization reach the caller *)

Lemma sendMessage_session_rejected_world (w : World) (wr : nat)
    (wrapper : LlamaChatSessionWrapper) (t : string) (e : JsError) :
  wrappers w !! wr = Some wrapper ->
  sessionPromises w !! sessionPromise wrapper = Some (SessionRejected e) ->
  run [SendMessage wr t; NativeSessionAwaited (length (sendMessageCalls w))] w
  = Some (with_sendMessageCalls
            (<[length (sendMessageCalls w) := Threw e]>
               (sendMessageCalls w ++ [AwaitingSession wr t])) w).
Proof.
  intros Hw Hs. simpl. unfold sendMessage. rewrite Hw. simpl.
  unfold resumeGetNativeSession. simpl. rewrite lookup_last_appended, Hw, Hs.
  reflexivity.
Qed.

(** X10: when the model load a session waits for has failed, the failure
    becomes the failure of the session promise and a [sendMessage] on the
    wrapper throws that same failure; no prompt call is made, the history
    is kept and the cache is not touched. *)
Theorem load_failure_reaches_sendMessage (w : World) (wr : nat)
    (wrapper : LlamaChatSessionWrapper) (this : LlamaClient) (p : nat)
    (systemInstruction : string) (h : option (list Message)) (e : JsError)
    (t : string) :
  wrappers w !! wr = Some wrapper ->
  sessionPromises w !! sessionPromise wrapper
  = Some (AwaitingModel this (Some p) systemInstruction h) ->
  modelPromises w !! p = Some (ModelRejected e) ->
  exists w',
    run [LoadModelAwaited (sessionPromise wrapper); SendMessage wr t;
         NativeSessionAwaited (length (sendMessageCalls w))] w = Some w'
    /\ sessionPromises w' !! sessionPromise wrapper = Some (SessionRejected e)
    /\ sendMessageCalls w' !! length (sendMessageCalls w) = Some (Threw e)
    /\ getHistory wr w' = Some (history wrapper)
    /\ promptCalls w' = promptCalls w
    /\ modelCache w' = modelCache w.
Proof.
  intros Hw Hsp Hp.
  assert (sessionPromise wrapper < length (sessionPromises w)) as Hlt
    by (eapply lookup_lt_Some; eauto).
  set (w1 := with_sessionPromises
               (<[sessionPromise wrapper := SessionRejected e]> (sessionPromises w)) w).
  assert (step (LoadModelAwaited (sessionPromise wrapper)) w = Some w1) as Hstep.
  { simpl. unfold resumeLoadModel. rewrite Hsp, Hp. reflexivity. }
  assert (sessionPromises w1 !! sessionPromise wrapper = Some (SessionRejected e)) as Hrej
    by (apply list_lookup_insert_eq; exact Hlt).
  pose proof (sendMessage_session_rejected_world w1 wr wrapper t e Hw Hrej) as Hrun.
  exists (with_sendMessageCalls
            (<[length (sendMessageCalls w) := Threw e]>
               (sendMessageCalls w ++ [AwaitingSession wr t])) w1).
  split.
  - change (match step (LoadModelAwaited (sessionPromise wrapper)) w with
            | Some w0 => run [SendMessage wr t;
                              NativeSessionAwaited (length (sendMessageCalls w))] w0
            | None => None
            end = Some
                  (with_sendMessageCalls
                     (<[length (sendMessageCalls w) := Threw e]>
                        (sendMessageCalls w ++ [AwaitingSession wr t])) w1)).
    rewrite Hstep. exact Hrun.
  - simpl. split; [exact Hrej|]. split; [apply lookup_updated_last|].
    unfold getHistory. simpl. rewrite Hw. repeat split.
Qed.

(** X11: when the context or the native session cannot be made after the
    model was loaded, the session promise is rejected with that failure
    and a [sendMessage] on the wrapper throws it, while the model cache and
    the model promises are exactly as before: the loaded model stays
    available to other sessions. *)
Theorem context_failure_keeps_model (w : World) (wr : nat)
    (wrapper : LlamaChatSessionWrapper) (this : LlamaClient) (m : LlamaModel)
    (systemInstruction : string) (h : option (list Message)) (e : JsError)
    (fresh : nat) (t : string) :
  wrappers w !! wr = Some wrapper ->
  sessionPromises w !! sessionPromise wrapper
  = Some (AwaitingContext this m systemInstruction h) ->
  exists w',
    run [ContextSettled (sessionPromise wrapper) (Rejects e) fresh; SendMessage wr t;
         NativeSessionAwaited (length (sendMessageCalls w))] w = Some w'
    /\ sessionPromises w' !! sessionPromise wrapper = Some (SessionRejected e)
    /\ sendMessageCalls w' !! length (sendMessageCalls w) = Some (Threw e)
    /\ getHistory wr w' = Some (history wrapper)
    /\ promptCalls w' = promptCalls w
    /\ modelCache w' = modelCache w
    /\ modelPromises w' = modelPromises w.
Proof.
  intros Hw Hsp.
  assert (sessionPromise wrapper < length (sessionPromises w)) as Hlt
    by (eapply lookup_lt_Some; eauto).
  set (w1 := with_sessionPromises
               (<[sessionPromise wrapper := SessionRejected e]> (sessionPromises w)) w).
  assert (step (ContextSettled (sessionPromise wrapper) (Rejects e) fresh) w = Some w1)
    as Hstep.
  { simpl. unfold settleContext. rewrite Hsp. reflexivity. }
  assert (sessionPromises w1 !! sessionPromise wrapper = Some (SessionRejected e)) as Hrej
    by (apply list_lookup_insert_eq; exact Hlt).
  pose proof (sendMessage_session_rejected_world w1 wr wrapper t e Hw Hrej) as Hrun.
  exists (with_sendMessageCalls
            (<[length (sendMessageCalls w) := Threw e]>
               (sendMessageCalls w ++ [AwaitingSession wr t])) w1).
  split.
  - change (match step (ContextSettled (sessionPromise wrapper) (Rejects e) fresh) w with
            | Some w0 => run [SendMessage wr t;
                              NativeSessionAwaited (length (sendMessageCalls w))] w0
            | None => None
            end = Some
                  (with_sendMessageCalls
                     (<[length (sendMessageCalls w) := Threw e]>
                        (sendMessageCalls w ++ [AwaitingSession wr t])) w1)).
    rewrite Hstep. exact Hrun.
  - simpl. split; [exact Hrej|]. split; [apply lookup_updated_last|].
    unfold getHistory. simpl. rewrite Hw. repeat split.
Qed.

(** ** What changes the cache *)

(** X12: a step changes the cache at one key at most, and only in two
    ways: a session is created for a fingerprint that has no entry, which
    gets one, or the [catch] block of a load still waiting for [getLlama]
    removes that load's own entry.  An existing entry is never
    overwritten, and the settling of [llama.loadModel] never touches the
    cache. *)
Theorem cache_changes_only_by_insert_or_catch (ev : Event) (w w' : World)
    (key : string) :
  step ev w = Some w' ->
  modelCache w' !! key <> modelCache w !! key ->
  (exists this systemInstruction h,
     ev = CreateChatSession this systemInstruction h
     /\ cacheKeyOf this = key
     /\ modelCache w !! key = None
     /\ modelCache w' !! key = Some (length (modelPromises w)))
  \/ (exists p o this,
        ev = GetLlamaSettled p o
        /\ modelPromises w !! p = Some (AwaitingGetLlama key this)
        /\ (exists e, failsBeforeLoad o e)
        /\ modelCache w' !! key = None).
Proof.
  intros Hstep Hne. invert_step Hstep; try contradiction.
  - left. destruct (decide (cacheKeyOf this = key)) as [<-|Hk].
    + eexists _, _, _. split; [reflexivity|]. split; [reflexivity|].
      split; [|apply lookup_insert_eq].
      destruct (modelCache w !! cacheKeyOf this) eqn:Hc; [|reflexivity].
      rewrite bool_decide_eq_true_2 in H by eauto. discriminate.
    + rewrite lookup_insert_ne in Hne by exact Hk. contradiction.
  - right. destruct (decide (cacheKey = key)) as [<-|Hk].
    + eexists _, _, _. split; [reflexivity|]. split; [eassumption|].
      split; [eexists; right; reflexivity | apply lookup_delete_eq].
    + rewrite lookup_delete_ne in Hne by exact Hk. contradiction.
  - right. destruct (decide (cacheKey = key)) as [<-|Hk].
    + eexists _, _, _. split; [reflexivity|]. split; [eassumption|].
      split; [eexists; left; reflexivity | apply lookup_delete_eq].
    + rewrite lookup_delete_ne in Hne by exact Hk. contradiction.
Qed.

Lemma load_failure_reaches_sendMessage_witness :
  exists w',
    run [LoadModelAwaited 0; SendMessage 0 "hi"; NativeSessionAwaited 0]
      load_failed_world = Some w'
    /\ sendMessageCalls w' !! 0 = Some (Threw (Error "cannot read the weights")).
Proof.
  destruct (load_failure_reaches_sendMessage load_failed_world 0 example_wrapper
              example_client 0 "be brief" (Some [])
              (Error "cannot read the weights") "hi"
              ltac:(vm_compute; reflexivity) ltac:(vm_compute; reflexivity)
              ltac:(vm_compute; reflexivity))
    as (w' & H1 & _ & H2 & _).
  exists w'. split; [exact H1 | exact H2].
Defined.

Lemma context_failure_keeps_model_witness :
  exists w',
    run [ContextSettled 0 (Rejects (Error "out of memory")) 2; SendMessage 0 "hi";
         NativeSessionAwaited 0] context_pending_world = Some w'
    /\ sendMessageCalls w' !! 0 = Some (Threw (Error "out of memory"))
    /\ modelCache w' = modelCache context_pending_world.
Proof.
  destruct (context_failure_keeps_model context_pending_world 0 seeded_wrapper
              example_client (ModelHandle 1) "be brief" (Some history_a_bc_d)
              (Error "out of memory") 2 "hi"
              ltac:(vm_compute; reflexivity) ltac:(vm_compute; reflexivity))
    as (w' & H1 & _ & H2 & _ & _ & H3 & _).
  exists w'. split; [exact H1 | split; [exact H2 | exact H3]].
Defined.

Lemma cache_changes_only_by_insert_or_catch_witness :
  (exists this systemInstruction h,
     CreateChatSession example_client "be brief" None
     = CreateChatSession this systemInstruction h
     /\ cacheKeyOf this = cacheKeyOf example_client
     /\ modelCache emptyWorld !! cacheKeyOf example_client = None
     /\ modelCache created_world !! cacheKeyOf example_client
        = Some (length (modelPromises emptyWorld)))
  \/ (exists p o this,
        CreateChatSession example_client "be brief" None = GetLlamaSettled p o
        /\ modelPromises emptyWorld !! p
           = Some (AwaitingGetLlama (cacheKeyOf example_client) this)
        /\ (exists e, failsBeforeLoad o e)
        /\ modelCache created_world !! cacheKeyOf example_client = None).
Proof.
  apply (cache_changes_only_by_insert_or_catch
           (CreateChatSession example_client "be brief" None)
           emptyWorld created_world (cacheKeyOf example_client) eq_refl).
  vm_compute. discriminate.
Defined.

(** ** Availability *)

(** X13: [isAvailable] is true exactly when the model path is not the
    empty string (the length test adds nothing to the truthiness test);
    for a client built by [fromEnvironment] that is the path of the
    validated configuration. *)
Theorem isAvailable_iff_path_not_empty (this : LlamaClient) :
  (isAvailable this = true <-> modelPath this <> "")
  /\ (modelPath this = "" -> isAvailable this = false)
  /\ (isAvailable this = negb (bool_decide (modelPath this = "")))
  /\ forall parseFloat parseInt config env,
       isAvailable (fromEnvironment parseFloat parseInt config env) = true
       <-> llamaModelPath config <> "".
Proof.
  assert (forall c, isAvailable c = negb (bool_decide (modelPath c = ""))) as Heq.
  { intros c. unfold isAvailable. destruct (modelPath c) as [|a s]; reflexivity. }
  assert (forall c, isAvailable c = true <-> modelPath c <> "") as Hiff.
  { intros c. rewrite Heq. case_bool_decide; simpl; split; congruence. }
  split; [apply Hiff|]. split; [|split; [apply Heq|]].
  - intros Hp. rewrite Heq, Hp. reflexivity.
  - intros parseFloat parseInt config env. apply Hiff.
Qed.

Lemma isAvailable_iff_path_not_empty_witness :
  isAvailable example_client = true.
Proof.
  apply (proj1 (isAvailable_iff_path_not_empty example_client)). discriminate.
Defined.
